(** * formatrus: a logrus formatter, embedded from formatter.go

    The development follows the richer of the two variants of
    [Formatter.Format] (the one with [Ordering], [MessageAfter],
    [CompactMessage] and the paragraph options).  Go strings and byte
    slices are both byte sequences and are embedded as [string]; Go's
    [int] is embedded as [Z] (the code only compares and copies the
    integers it handles, so no wrap-around can occur); Go maps are
    [gmap string _], a nil map being [None]. *)

From Stdlib Require Import ZArith String Ascii List Bool Lia.
From stdpp Require Import base option list gmap strings fin_maps sorting.

Local Open Scope string_scope.
Local Open Scope Z_scope.

(** ** Byte strings *)

Module Bytes.

(** [len(s)]: the number of bytes. *)
Definition len (s : string) : Z := Z.of_nat (String.length s).

Fixpoint map_bytes (f : ascii → ascii) (s : string) : string :=
  match s with
  | EmptyString => EmptyString
  | String c s' => String (f c) (map_bytes f s')
  end.

Definition upper_byte (c : ascii) : ascii :=
  let n := N_of_ascii c in
  if ((97 <=? n) && (n <=? 122))%N then ascii_of_N (n - 32) else c.

Definition lower_byte (c : ascii) : ascii :=
  let n := N_of_ascii c in
  if ((65 <=? n) && (n <=? 90))%N then ascii_of_N (n + 32) else c.

(** [strings.ToUpper] and [strings.ToLower] on ASCII text (the level
    texts are ASCII). *)
Definition ToUpper (s : string) : string := map_bytes upper_byte s.
Definition ToLower (s : string) : string := map_bytes lower_byte s.

(** [s[0:n]] for [0 <= n <= len(s)]. *)
Definition prefix_of (n : Z) (s : string) : string :=
  String.substring 0 (Z.to_nat n) s.

Fixpoint repeat_nat (b : string) (n : nat) : string :=
  match n with
  | O => EmptyString
  | S n' => b +:+ repeat_nat b n'
  end.

Definition newline : ascii := ascii_of_N 10.
Definition bNewline : string := String newline EmptyString.
Definition bSpace : string := " ".

Fixpoint contains_newline (s : string) : bool :=
  match s with
  | EmptyString => false
  | String c s' => Ascii.eqb c newline || contains_newline s'
  end.

(** [bytes.Replace(data, bNewline, padding, -1)]. *)
Fixpoint replace_newlines (padding : string) (data : string) : string :=
  match data with
  | EmptyString => EmptyString
  | String c s' =>
      if Ascii.eqb c newline then padding +:+ replace_newlines padding s'
      else String c (replace_newlines padding s')
  end.

End Bytes.

(** ** Results of code that can panic *)

Inductive result (A : Type) : Type :=
| Ok (a : A)
| Panic (why : string).
Arguments Ok {A} a.
Arguments Panic {A} why.

#[global] Instance result_ret : MRet result := λ A a, Ok a.
#[global] Instance result_bind : MBind result := λ A B k r,
  match r with
  | Ok a => k a
  | Panic why => Panic why
  end.

Definition is_ok {A} (r : result A) : bool :=
  match r with Ok _ => true | Panic _ => false end.

(** [bytes.Repeat(b, count)] panics on a negative count. *)
Definition bytes_Repeat (b : string) (count : Z) : result string :=
  if count <? 0 then Panic "bytes: negative Repeat count"
  else Ok (Bytes.repeat_nat b (Z.to_nat count)).

(** ** The regular expression [reCompact = \s*\n\s*]

    Go's regexp package matches leftmost-first: a greedy star takes as
    many bytes as it can and gives them back one at a time until the
    rest of the pattern matches.  [star_then p k] is that behaviour for
    a starred byte class followed by the continuation [k]; the result
    is the number of bytes the match consumes. *)

Module Regexp.

(** The class [\s] of RE2: tab, newline, form feed, carriage return, space. *)
Definition is_space (c : ascii) : bool :=
  let n := N_of_ascii c in
  ((n =? 9) || (n =? 10) || (n =? 12) || (n =? 13) || (n =? 32))%N.

Fixpoint star_then (p : ascii → bool) (k : string → option nat) (s : string)
  : option nat :=
  match s with
  | String c s' =>
      if p c then
        match star_then p k s' with
        | Some n => Some (S n)
        | None => k s
        end
      else k s
  | EmptyString => k s
  end.

Definition newline_then (k : string → option nat) (s : string) : option nat :=
  match s with
  | String c s' => if Ascii.eqb c Bytes.newline then S <$> k s' else None
  | EmptyString => None
  end.

(** A match of [\s*\n\s*] anchored at the start of [s]. *)
Definition reCompact_match (s : string) : option nat :=
  star_then is_space
    (newline_then (star_then is_space (λ _, Some O))) s.

(** [re.ReplaceAll(src, repl)]: scan from the left; at a position where
    the pattern matches, emit [repl] and resume after the match,
    otherwise copy one byte.  [skip] counts the bytes of the current
    match still to be dropped. *)
Fixpoint replace_from (repl : string) (skip : nat) (s : string) : string :=
  match s with
  | EmptyString => EmptyString
  | String c s' =>
      match skip with
      | S n => replace_from repl n s'
      | O =>
          match reCompact_match s with
          | Some (S n) => repl +:+ replace_from repl n s'
          | _ => String c (replace_from repl O s')
          end
      end
  end.

Definition reCompact_ReplaceAll (src repl : string) : string :=
  replace_from repl O src.

End Regexp.

(** ** Level classifier *)

(** [logrus.Level]. *)
Inductive logrus_Level : Set :=
| PanicLevel | FatalLevel | ErrorLevel | WarnLevel | InfoLevel
| DebugLevel | TraceLevel.

Definition levelText3 (l : logrus_Level) : string :=
  match l with
  | InfoLevel => "Inf"
  | WarnLevel => "Wrn"
  | ErrorLevel => "Err"
  | FatalLevel => "Ftl"
  | PanicLevel => "Pnc"
  | _ => "Dbg"
  end.

Definition levelText5 (l : logrus_Level) : string :=
  match l with
  | InfoLevel => "Info "
  | WarnLevel => "Warn "
  | ErrorLevel => "Error"
  | FatalLevel => "Fatal"
  | PanicLevel => "Panic"
  | _ => "Debug"
  end.

(** Lines 202-204: the write-back of [LevelLetters]. *)
Definition coerce_letters (n : Z) : Z := if n <=? 0 then 3 else n.

(** Lines 206-212, on the coerced width. *)
Definition select_text (l : logrus_Level) (n : Z) : string :=
  if n >=? 5 then levelText5 l
  else if n >? 3 then Bytes.prefix_of n (levelText5 l)
  else Bytes.prefix_of n (levelText3 l).

(** Lines 214-219. *)
Definition fold_case (upper lower : bool) (s : string) : string :=
  let s := if upper then Bytes.ToUpper s else s in
  if lower then Bytes.ToUpper s else s.

(** ** Field sorter *)

(** [strings.Compare]. *)
Definition strings_Compare (a b : string) : Z :=
  match String.compare a b with
  | Lt => -1
  | Eq => 0
  | Gt => 1
  end.

(** [m[k]] on a [map[string]int]: the zero value when the key is absent. *)
Definition index0 (m : gmap string Z) (k : string) : Z := default 0 (m !! k).

Record sorter : Type := mkSorter {
  order : option (gmap string Z);
  pri : option (gmap string Z);
  keys : list string
}.

(** [sorter.Less], on the two keys [a := s.keys[i]] and [b := s.keys[j]]. *)
Definition Less (s : sorter) (a b : string) : bool :=
  let by_name := bool_decide (strings_Compare a b < 1) in
  let by_pri :=
    match pri s with
    | Some p =>
        let ap := index0 p a in
        let bp := index0 p b in
        if ap >? bp then false
        else if ap <? bp then true
        else by_name
    | None => by_name
    end in
  match order s with
  | Some o =>
      let ai := index0 o a in
      let bi := index0 o b in
      if ai <? bi then false
      else if ai >? bi then true
      else by_pri
  | None => by_pri
  end.

(** The number [Less] reads for a key in one of its two maps; a nil
    map is skipped, which amounts to 0 for every key. *)
Definition rank_of (m : option (gmap string Z)) (k : string) : Z :=
  match m with
  | Some m => index0 m k
  | None => 0
  end.

(** The order [Less] decides: greater [order] number first, then
    smaller [pri] number, then by name. *)
Definition Less_order (s : sorter) (a b : string) : Prop :=
  rank_of (order s) b < rank_of (order s) a ∨
  (rank_of (order s) a = rank_of (order s) b ∧
   (rank_of (pri s) a < rank_of (pri s) b ∨
    (rank_of (pri s) a = rank_of (pri s) b ∧ String.le a b))).

(** [sort.Sort] and [sort.Strings] are library code; they are embedded
    as an insertion sort driven by the same [less].  The keys of a map
    are distinct and both orders used here are total on distinct keys,
    so the sorted arrangement is unique (lemmas [sort_Sort_unique] and
    [sort_Strings_unique] below) and the choice of algorithm is not
    observable. *)
Fixpoint insert_by {A} (less : A → A → bool) (x : A) (l : list A) : list A :=
  match l with
  | [] => [x]
  | y :: l' => if less y x then y :: insert_by less x l' else x :: y :: l'
  end.

Fixpoint sort_by {A} (less : A → A → bool) (l : list A) : list A :=
  match l with
  | [] => []
  | x :: l' => insert_by less x (sort_by less l')
  end.

Definition sort_Sort (s : sorter) : list string := sort_by (Less s) (keys s).

Definition sort_Strings (ks : list string) : list string :=
  sort_by (λ a b, bool_decide (strings_Compare a b < 0)) ks.

(** Lines 282-285: [pri[k] = i] for every [i, k] of [orders], from
    index [i] on. *)
Fixpoint index_orders (i : Z) (orders : list string) (p : gmap string Z)
  : gmap string Z :=
  match orders with
  | [] => p
  | k :: rest => index_orders (i + 1) rest (<[k := i]> p)
  end.

(** Lines 277-294. *)
Definition sort_keys (ordering : option (gmap string Z))
    (orders ks : list string) : list string :=
  if bool_decide (ordering = None) && (Z.of_nat (length orders) =? 0)
  then sort_Strings ks
  else
    let pri :=
      if Z.of_nat (length orders) >? 0 then Some (index_orders 0 orders ∅)
      else None in
    sort_Sort {| order := ordering; keys := ks; pri := pri |}.

(** ** Records, values and the formatter *)

(** What [Format] can observe of a field value (an [interface{}]): its
    dynamic type as far as the type assertions of the code distinguish
    it, and the result of [json.Marshal(depict.Portray(value))]. *)
Inductive Dyn : Type :=
| DString (s : string)          (* a Go [string] *)
| DStrings (l : list string)    (* a [[]string] *)
| DOther (err : option string) (str : option string).
    (* any other type; [err] is [Error()] when the value implements
       [error], [str] is [String()] when it implements [fmt.Stringer] *)

Record Value : Type := mkValue {
  dyn : Dyn;
  (* [Some data] when [err == nil]; on an error [json.Marshal] returns
     a nil slice. *)
  marshal : option string
}.

(** [entry.Logger.Out], as far as the type switch of line 144 looks. *)
Inductive Writer : Type :=
| OsFile (tty : bool)   (* [*os.File]; [tty] is [terminal.IsTerminal(fd)] *)
| OtherWriter.

Inductive Month : Set :=
| January | February | March | April | May | June | July | August
| September | October | November | December.

Record time_Time : Type := mkTime {
  month : Month; day : Z; hour : Z; minute : Z; second : Z; nanosecond : Z
}.

Record Entry : Type := mkEntry {
  Logger : option Writer;       (* [None]: a nil [entry.Logger] *)
  Data : gmap string Value;
  Level : logrus_Level;   Time : time_Time;
  Message : string;
  Buffer : option string        (* contents of [entry.Buffer], if not nil *)
}.

(** [*prettyjson.Formatter], of which only [Indent] is set here. *)
Record prettyjson_Formatter : Type := { Indent : Z }.

Record Formatter : Type := mkFormatter {
  LevelLetters : Z;
  LevelUpper : bool;
  LevelLower : bool;
  CompactFull : bool;
  CompactSimple : bool;
  MessageAfter : bool;
  CompactMessage : bool;
  ParagraphAll : bool;
  ParagraphBlock : bool;
  Ordering : option (gmap string Z);
  isTerminal : bool;
  jsonFmt : option prettyjson_Formatter;
  once_done : bool               (* the embedded [sync.Once] has fired *)
}.

(** [New()]. *)
Definition New : Formatter :=
  {| LevelLetters := 3; LevelUpper := true; LevelLower := false;
     CompactFull := false; CompactSimple := true; MessageAfter := true;
     CompactMessage := true; ParagraphAll := false; ParagraphBlock := false;
     Ordering := None; isTerminal := false; jsonFmt := None;
     once_done := false |}.

Definition with_LevelLetters (n : Z) (f : Formatter) : Formatter :=
  {| LevelLetters := n; LevelUpper := LevelUpper f; LevelLower := LevelLower f;
     CompactFull := CompactFull f; CompactSimple := CompactSimple f;
     MessageAfter := MessageAfter f; CompactMessage := CompactMessage f;
     ParagraphAll := ParagraphAll f; ParagraphBlock := ParagraphBlock f;
     Ordering := Ordering f; isTerminal := isTerminal f;
     jsonFmt := jsonFmt f; once_done := once_done f |}.

Definition with_once (t : bool) (j : option prettyjson_Formatter)
    (f : Formatter) : Formatter :=
  {| LevelLetters := LevelLetters f; LevelUpper := LevelUpper f;
     LevelLower := LevelLower f;
     CompactFull := CompactFull f; CompactSimple := CompactSimple f;
     MessageAfter := MessageAfter f; CompactMessage := CompactMessage f;
     ParagraphAll := ParagraphAll f; ParagraphBlock := ParagraphBlock f;
     Ordering := Ordering f; isTerminal := t;
     jsonFmt := j; once_done := true |}.

(** Lines 142-151: [f.Do(func() {...})]. *)
Definition Do (f : Formatter) (entry : Entry) : Formatter :=
  if once_done f then f
  else
    let t :=
      match Logger entry with
      | Some (OsFile tty) => tty
      | _ => isTerminal f
      end in
    with_once t (Some {| Indent := 1 |}) f.

(** [Formatter.Order]. *)
Definition Order (f : Formatter) (priority : Z) (ks : list string) : Formatter :=
  let m := default ∅ (Ordering f) in
  {| LevelLetters := LevelLetters f; LevelUpper := LevelUpper f;
     LevelLower := LevelLower f;
     CompactFull := CompactFull f; CompactSimple := CompactSimple f;
     MessageAfter := MessageAfter f; CompactMessage := CompactMessage f;
     ParagraphAll := ParagraphAll f; ParagraphBlock := ParagraphBlock f;
     Ordering := Some (foldl (λ m key, <[key := priority]> m) m ks);
     isTerminal := isTerminal f;
     jsonFmt := jsonFmt f; once_done := once_done f |}.

(** ** Imported packages

    The colour functions of [ansi.ColorFunc], [json.Marshal] on a Go
    string (which cannot fail) and [prettyjson.Formatter.Format] are
    library code; the formatter is embedded over any implementation of
    them. *)
Class Libs : Type := {
  green : string → string;
  yellow : string → string;
  red : string → string;
  blue : string → string;
  cyan : string → string;
  magenta : string → string;
  whiteH : string → string;
  blackH : string → string;
  json_Marshal_string : string → string;
  prettyjson_Format : prettyjson_Formatter → string → option string
}.

Definition noColour (s : string) : string := s.

Definition braketise (s : string) : string := "[" +:+ s +:+ "]".

(** [t.Format("Jan 02 15:04:05.000")]. *)
Module TimeFormat.

Definition month_abbrev (m : Month) : string :=
  match m with
  | January => "Jan" | February => "Feb" | March => "Mar" | April => "Apr"
  | May => "May" | June => "Jun" | July => "Jul" | August => "Aug"
  | September => "Sep" | October => "Oct" | November => "Nov"
  | December => "Dec"
  end.

Definition digit (n : Z) : ascii := ascii_of_N (48 + Z.to_N (n mod 10)).

Definition pad2 (n : Z) : string :=
  String (digit (n / 10)) (String (digit n) EmptyString).

Definition pad3 (n : Z) : string := String (digit (n / 100)) (pad2 n).

Definition stamp (t : time_Time) : string :=
  month_abbrev (month t) +:+ " " +:+ pad2 (day t) +:+ " " +:+
  pad2 (hour t) +:+ ":" +:+ pad2 (minute t) +:+ ":" +:+ pad2 (second t) +:+
  "." +:+ pad3 (nanosecond t / 1000000).

End TimeFormat.

Definition nonempty (s : string) : bool := negb (String.eqb s "").

Section Format.
Context `{L : Libs}.

(** The colour functions in force (lines 153-195). *)
Definition levelColour (f : Formatter) (l : logrus_Level) : string → string :=
  if isTerminal f then
    match l with
    | InfoLevel => green
    | WarnLevel => yellow
    | ErrorLevel | FatalLevel | PanicLevel => red
    | _ => blue
    end
  else noColour.
Definition dataColour (f : Formatter) : string → string :=
  if isTerminal f then cyan else noColour.
Definition prefixColour (f : Formatter) : string → string :=
  if isTerminal f then magenta else noColour.
Definition userColour (f : Formatter) : string → string :=
  if isTerminal f then whiteH else noColour.
Definition timeColour (f : Formatter) : string → string :=
  if isTerminal f then blackH else braketise.

(** Lines 206-219, reading the width already coerced. *)
Definition levelText (f : Formatter) (entry : Entry) : string :=
  fold_case (LevelUpper f) (LevelLower f)
    (select_text (Level entry) (LevelLetters f)).

(** [v, ok := entry.Data[k]; v, ok := v.(string)]. *)
Definition string_field (entry : Entry) (k : string) : option string :=
  match Data entry !! k with
  | Some v => match dyn v with DString s => Some s | _ => None end
  | None => None
  end.

(** Lines 221-248. *)
Definition compose_prefix (f : Formatter) (entry : Entry) : string :=
  let user :=
    match string_field entry "user" with
    | Some v => userColour f (v +:+ "@")
    | None => ""
    end in
  let prefix :=
    match string_field entry "rpc" with
    | Some v => v
    | None => ""
    end in
  let prefix :=
    match string_field entry "prefix" with
    | Some v =>
        let v := if nonempty prefix then v +:+ "/" else v in
        v +:+ prefix
    | None => prefix
    end in
  let prefix :=
    if nonempty prefix then prefixColour f (prefix +:+ ":") else prefix in
  let prefix := user +:+ prefix in
  if nonempty prefix then prefix +:+ " " else prefix.

(** Lines 250-257: what the two [Fprintf] calls append. *)
Definition header (f : Formatter) (entry : Entry) : string :=
  let prefix := compose_prefix f entry in
  timeColour f (TimeFormat.stamp (Time entry)) +:+ " " +:+
  levelColour f (Level entry) (levelText f entry) +:+
  (if nonempty prefix then " " +:+ prefix else "").

(** The state of the loop of lines 259-275. *)
Record collected : Type := mkCollected {
  orders : list string;
  names : list string;
  keySize : Z
}.

Definition is_context_key (key : string) : bool :=
  String.eqb key "prefix" || String.eqb key "rpc" || String.eqb key "user".

(** One iteration of the loop of lines 263-275. *)
Definition collect_step (prefix : string) (c : collected)
    (kv : string * Value) : result collected :=
  let '(key, v) := kv in
  if String.eqb key "_order" then
    match dyn v with
    | DStrings l =>
        Ok {| orders := l; names := names c; keySize := keySize c |}
    | _ => Panic "interface conversion: interface {} is not []string"
    end
  else if is_context_key key && nonempty prefix then Ok c
  else
    let n := Bytes.len key in
    Ok {| orders := orders c; names := names c ++ [key];
          keySize := if n >? keySize c then n else keySize c |}.

(** The keys the loop keeps for the generic field list. *)
Definition generic_key (prefix : string) (key : string) : bool :=
  negb (String.eqb key "_order") &&
  negb (is_context_key key && nonempty prefix).

Fixpoint collect_from (prefix : string) (c : collected)
    (kvs : list (string * Value)) : result collected :=
  match kvs with
  | [] => Ok c
  | kv :: rest => c' ← collect_step prefix c kv; collect_from prefix c' rest
  end.

(** Lines 259-275; the map is ranged over in the order of [map_to_list]. *)
Definition collect (f : Formatter) (entry : Entry) : result collected :=
  collect_from (compose_prefix f entry)
    {| orders := []; names := []; keySize := 5 |}
    (map_to_list (Data entry)).

(** Lines 296-298. *)
Definition clamp_keySize (n : Z) : Z := if n >? 20 then 20 else n.

(** Line 302. *)
Definition cuddleMessage (f : Formatter) (entry : Entry)
    (ks : list string) : bool :=
  negb (MessageAfter f) ||
  (CompactMessage f && (Z.of_nat (length ks) =? 0) &&
   (Bytes.len (Message entry) <? 100)).

(** Line 307; [keySize + 4] is positive, so [bytes.Repeat] returns. *)
Definition padding (keySize : Z) : string :=
  Bytes.bNewline +:+ Bytes.repeat_nat " " (Z.to_nat (keySize + 4)).

Definition starts_with_brace (data : string) : bool :=
  match data with
  | String c _ => Ascii.eqb c "{"%char
  | EmptyString => false
  end.

(** Lines 311-325: [data, err] after the rescue of an empty object;
    [None] stands for [err != nil]. *)
Definition marshal_value (value : Value) : option string :=
  match marshal value with
  | Some data =>
      if (Bytes.len data =? 2) && starts_with_brace data then
        match dyn value with
        | DOther (Some str) _ =>
            if Bytes.len str >? 0 then Some (json_Marshal_string str)
            else Some data
        | DOther None (Some str) =>
            if Bytes.len str >? 0 then Some (json_Marshal_string str)
            else Some data
        | _ => Some data
        end
      else Some data
  | None => None
  end.

(** Lines 327-331. *)
Definition prettify (f : Formatter) (d : option string)
  : result (option string) :=
  match d with
  | Some data =>
      if isTerminal f then
        match jsonFmt f with
        | Some j => Ok (Some (default data (prettyjson_Format j data)))
        | None => Panic "nil pointer dereference"
        end
      else Ok (Some data)
  | None => Ok None
  end.

(** Lines 333-335: [%#v] of the nil slice left by the failed
    [json.Marshal]. *)
Definition or_fallback (d : option string) : string :=
  default "[]byte(nil)" d.

(** Lines 311-335. *)
Definition render_value (f : Formatter) (value : Value) : result string :=
  d ← prettify f (marshal_value value); mret (or_fallback d).

(** Lines 342-346. *)
Definition layout (f : Formatter) (keySize : Z) (data : string) : string :=
  if CompactFull f || (CompactSimple f && (Bytes.len data <? 100)) then
    Regexp.reCompact_ReplaceAll data Bytes.bSpace
  else Bytes.replace_newlines (padding keySize) data.

(** The value stored under a listed key; every listed key is a key of
    the map, the nil interface of a missing key is never reached. *)
Definition nil_value : Value :=
  {| dyn := DOther None None; marshal := Some "null" |}.

(** Lines 308-351: what one iteration appends to the buffer. *)
Definition field_entry (f : Formatter) (entry : Entry) (keySize : Z)
    (key : string) : result string :=
  let value := default nil_value (Data entry !! key) in
  data ← render_value f value;
  if isTerminal f then
    let l := keySize - Bytes.len key in
    pad ← bytes_Repeat Bytes.bSpace l;
    mret (Bytes.bNewline +:+ "  " +:+ dataColour f key +:+ ": " +:+ pad +:+
          layout f keySize data)
  else mret ("  " +:+ key +:+ "=" +:+ data).

Fixpoint write_fields (f : Formatter) (entry : Entry) (keySize : Z)
    (ks : list string) (b : string) : result string :=
  match ks with
  | [] => Ok b
  | key :: rest =>
      s ← field_entry f entry keySize key;
      write_fields f entry keySize rest (b +:+ s)
  end.

(** Lines 352-361. *)
Definition trailer (f : Formatter) (entry : Entry) (cuddle : bool) : string :=
  Bytes.bNewline +:+
  (if negb cuddle then
     "  " +:+ Message entry +:+ Bytes.bNewline +:+
     (if ParagraphAll f || ParagraphBlock f then Bytes.bNewline else "")
   else if ParagraphAll f then Bytes.bNewline else "").

(** Lines 197-363 on the formatter as [Do] and the write-back of
    [LevelLetters] left it. *)
Definition Format_body (f : Formatter) (entry : Entry) : result string :=
  let b := default "" (Buffer entry) in
  let b := b +:+ header f entry in
  c ← collect f entry;
  let ks := sort_keys (Ordering f) (orders c) (names c) in
  let keySize := clamp_keySize (keySize c) in
  let cuddle := cuddleMessage f entry ks in
  let b := if cuddle then b +:+ Message entry else b in
  b ← write_fields f entry keySize ks b;
  mret (b +:+ trailer f entry cuddle).

(** The sorted field list and the key column the loops of lines
    259-298 arrive at when the map is ranged over in the order [kvs]. *)
Definition field_plan_over (f : Formatter) (entry : Entry)
    (kvs : list (string * Value)) : result (list string * Z) :=
  c ← collect_from (compose_prefix f entry)
        {| orders := []; names := []; keySize := 5 |} kvs;
  mret (sort_keys (Ordering f) (orders c) (names c),
        clamp_keySize (keySize c)).

(** The sorted field list ([keys] at line 295) and the key column
    ([keySize] at line 299) of a call. *)
Definition field_names (f : Formatter) (entry : Entry)
  : result (list string) :=
  c ← collect f entry; mret (sort_keys (Ordering f) (orders c) (names c)).

Definition key_column (f : Formatter) (entry : Entry) : result Z :=
  c ← collect f entry; mret (clamp_keySize (keySize c)).

(** What the loop of lines 308-351 appends in all. *)
Definition field_block (f : Formatter) (entry : Entry) (keySize : Z)
    (ks : list string) : result string :=
  write_fields f entry keySize ks "".

(** The non-interactive entry of a key (lines 348-349). *)
Definition key_value_pair (entry : Entry) (key : string) : string :=
  "  " +:+ key +:+ "=" +:+
  or_fallback (marshal_value (default nil_value (Data entry !! key))).

(** [Formatter.Format]: the formatter as the call leaves it, and the
    bytes returned (the error returned is always nil). *)
Definition Format (f : Formatter) (entry : Entry) : Formatter * result string :=
  let f := Do f entry in
  let f := with_LevelLetters (coerce_letters (LevelLetters f)) f in
  (f, Format_body f entry).

End Format.

(** ** A plain instance of the imported packages

    Used to run [Format] on concrete records: the colour functions are
    the identity and the pretty-printer declines, so that the plain
    serialization is kept.  Outside interactive mode neither is called.
    [quote] is [json.Marshal] on a string of printable ASCII bytes
    other than [<], [>] and [&]. *)
Module Plain.

Definition dquote : ascii := ascii_of_N 34.
Definition backslash : ascii := ascii_of_N 92.

Fixpoint escape (s : string) : string :=
  match s with
  | EmptyString => EmptyString
  | String c s' =>
      if Ascii.eqb c dquote || Ascii.eqb c backslash
      then String backslash (String c (escape s'))
      else String c (escape s')
  end.

Definition quote (s : string) : string :=
  String dquote (escape s) +:+ String dquote EmptyString.

#[export] Instance libs : Libs := {|
  green := noColour; yellow := noColour; red := noColour; blue := noColour;
  cyan := noColour; magenta := noColour; whiteH := noColour;
  blackH := noColour;
  json_Marshal_string := quote;
  prettyjson_Format := λ _ _, None
|}.

(** A Go string, a [[]string], a number and an error value whose
    fields are all unexported (it marshals to the empty object). *)
Definition VString (s : string) : Value :=
  {| dyn := DString s; marshal := Some (quote s) |}.
Fixpoint quote_all (l : list string) : string :=
  match l with
  | [] => EmptyString
  | [s] => quote s
  | s :: rest => quote s +:+ "," +:+ quote_all rest
  end.
Definition VStrings (l : list string) : Value :=
  {| dyn := DStrings l; marshal := Some ("[" +:+ quote_all l +:+ "]") |}.
Definition VNumber (js : string) : Value :=
  {| dyn := DOther None None; marshal := Some js |}.
Definition VError (text : string) : Value :=
  {| dyn := DOther (Some text) None; marshal := Some "{}" |}.

Definition reference_time : time_Time :=
  {| month := January; day := 2; hour := 15; minute := 4; second := 5;
     nanosecond := 0 |}.

(** A file on a terminal as the logger's output. *)
Definition on_terminal (entry : Entry) : Entry :=
  {| Logger := Some (OsFile true); Data := Data entry; Level := Level entry;
     Time := Time entry; Message := Message entry; Buffer := Buffer entry |}.

(** [New()] with some options changed. *)
Definition lower_only : Formatter :=
  {| LevelLetters := 3; LevelUpper := false; LevelLower := true;
     CompactFull := false; CompactSimple := true; MessageAfter := true;
     CompactMessage := true; ParagraphAll := false; ParagraphBlock := false;
     Ordering := None; isTerminal := false; jsonFmt := None;
     once_done := false |}.

Definition message_first (paragraph_all : bool) : Formatter :=
  {| LevelLetters := 3; LevelUpper := true; LevelLower := false;
     CompactFull := false; CompactSimple := true; MessageAfter := false;
     CompactMessage := true; ParagraphAll := paragraph_all;
     ParagraphBlock := false;
     Ordering := None; isTerminal := false; jsonFmt := None;
     once_done := false |}.

(** An error value with an empty error text that is also a stringer. *)
Definition mute_error : Value :=
  {| dyn := DOther (Some "") (Some "boom"); marshal := Some "{}" |}.

Definition record (l : logrus_Level) (msg : string)
    (fields : list (string * Value)) : Entry :=
  {| Logger := None; Data := list_to_map fields; Level := l;
     Time := reference_time; Message := msg; Buffer := None |}.

(** Records used below: one field; the fields [z], [a] and [m] with the
    order hint [z, a]. *)
Definition one_field : Entry :=
  record InfoLevel "ready" [("k", VNumber "1")].

Definition hinted : Entry :=
  record InfoLevel "ready"
    [("_order", VStrings ["z"; "a"]); ("z", VNumber "1");
     ("a", VNumber "2"); ("m", VNumber "3")].

(** [New()] after its first call on a terminal. *)
Definition interactive : Formatter :=
  with_once true (Some {| Indent := 1 |}) New.

End Plain.

(** ** The specification's notions *)

Module Spec.

(** The width the level abbreviation is cut to: values [<= 0] behave
    as 3, larger ones are clamped into [1,5]. *)
Definition effective_width (level_letters : Z) : Z :=
  if level_letters <=? 0 then 3 else Z.max 1 (Z.min level_letters 5).

(** The form the abbreviation is cut from. *)
Definition level_form (l : logrus_Level) (w : Z) : string :=
  if w <=? 3 then levelText3 l else levelText5 l.

(** Cuddle eligibility. *)
Definition on_header_line (message_after compact_message : bool)
    (fields : list string) (message : string) : bool :=
  negb message_after ||
  (compact_message && bool_decide (fields = []) &&
   bool_decide (Bytes.len message < 100)).

(** [key_width = max(5, min(20, longest field-name length))]. *)
Definition longest (fields : list string) : Z :=
  foldr (λ k m, Z.max (Bytes.len k) m) 0 fields.

Definition key_width (fields : list string) : Z :=
  Z.max 5 (Z.min 20 (longest fields)).

(** Maximal runs of whitespace and of other bytes, in order; the flag
    tells whether the run is whitespace. *)
Fixpoint runs (s : string) : list (bool * string) :=
  match s with
  | EmptyString => []
  | String c s' =>
      let w := Regexp.is_space c in
      match runs s' with
      | (w', r) :: rest =>
          if Bool.eqb w w' then (w, String c r) :: rest
          else (w, String c EmptyString) :: (w', r) :: rest
      | [] => [(w, String c EmptyString)]
      end
  end.

(** Runs as [runs] builds them: not empty, of one kind of byte, and of
    alternating kinds. *)
Fixpoint uniform (w : bool) (r : string) : bool :=
  match r with
  | EmptyString => true
  | String c r' => Bool.eqb (Regexp.is_space c) w && uniform w r'
  end.

Definition head_kind (rs : list (bool * string)) : option bool :=
  match rs with
  | [] => None
  | (w, _) :: _ => Some w
  end.

Fixpoint well_formed (rs : list (bool * string)) : Prop :=
  match rs with
  | [] => True
  | (w, r) :: rest =>
      r ≠ "" ∧ uniform w r = true ∧ head_kind rest ≠ Some w ∧
      well_formed rest
  end.

Definition starts_with_space (s : string) : bool :=
  match s with
  | EmptyString => false
  | String c _ => Regexp.is_space c
  end.

Definition collapse_run (run : bool * string) : string :=
  if run.1 && Bytes.contains_newline run.2 then " " else run.2.

Fixpoint join (l : list string) : string :=
  match l with
  | [] => EmptyString
  | s :: l' => s +:+ join l'
  end.

(** Single-line form: every run of whitespace that contains a newline
    becomes one space. *)
Definition single_line_form (text : string) : string :=
  join (collapse_run <$> runs text).


(** Position of a name in the order hint (its last occurrence, should
    the hint repeat it). *)
Fixpoint hint_index (i : Z) (hint : list string) (k : string) : option Z :=
  match hint with
  | [] => None
  | x :: rest =>
      match hint_index (i + 1) rest k with
      | Some j => Some j
      | None => if String.eqb x k then Some i else None
      end
  end.


(** The rank the code gives a name: its hint index, and 0 for a name
    absent from the hint. *)
Definition hint_rank (hint : list string) (k : string) : Z :=
  default 0 (hint_index 0 hint k).


(** The text a degenerate value is rescued with: the first of the
    error-style and the stringer-style representation that is not
    empty. *)
Definition rescue_text (v : Value) : option string :=
  match dyn v with
  | DOther err str =>
      match err with
      | Some t => if nonempty t then Some t
                  else match str with
                       | Some u => if nonempty u then Some u else None
                       | None => None
                       end
      | None => match str with
                | Some u => if nonempty u then Some u else None
                | None => None
                end
      end
  | _ => None
  end.

(** The text the code rescues a degenerate value with: an error value
    is asked for its error text only. *)
Definition rescue_text_by_type (v : Value) : option string :=
  match dyn v with
  | DOther (Some t) _ => if nonempty t then Some t else None
  | DOther None (Some u) => if nonempty u then Some u else None
  | _ => None
  end.

(** A single line: no newline but the one that ends it. *)
Fixpoint single_line (out : string) : bool :=
  match out with
  | EmptyString => false
  | String c EmptyString => Ascii.eqb c Bytes.newline
  | String c rest => negb (Ascii.eqb c Bytes.newline) && single_line rest
  end.

(** The same record with another message. *)
Definition with_message (message : string) (entry : Entry) : Entry :=
  {| Logger := Logger entry; Data := Data entry; Level := Level entry;
     Time := Time entry; Message := message; Buffer := Buffer entry |}.

End Spec.

(** ** The sorter as a [sort.Interface] *)

(** [sorter.Len]. *)
Definition Len (s : sorter) : Z := Z.of_nat (length (keys s)).

(** [s.keys[i]]: an index outside [0, len) panics. *)
Definition key_at (s : sorter) (i : Z) : result string :=
  if (i <? 0) || (Len s <=? i) then Panic "index out of range"
  else match keys s !! Z.to_nat i with
       | Some k => Ok k
       | None => Panic "index out of range"
       end.

(** [sorter.Swap]: both elements are read before either is written. *)
Definition Swap (s : sorter) (i j : Z) : result sorter :=
  b ← key_at s j;
  a ← key_at s i;
  mret {| order := order s; pri := pri s;
          keys := <[Z.to_nat j := a]> (<[Z.to_nat i := b]> (keys s)) |}.

(** [sorter.Less] on indices. *)
Definition Less_at (s : sorter) (i j : Z) : result bool :=
  a ← key_at s i;
  b ← key_at s j;
  mret (Less s a b).

(** ** The older variant of the formatter

    The second [Format] of formatter.go: no ordering, no message
    options, [json.Marshal] on the value itself and no rescue of empty
    objects.  Its struct has the first five options only; the pieces it
    shares with the richer variant are read through [widen]. *)

(** [json.Marshal(value)] on a field value: [Some data] when
    [err == nil]. *)
Class RawMarshal : Type := { json_Marshal : Value → option string }.

Module Legacy.

Record Formatter : Type := mk {
  LevelLetters : Z;
  LevelUpper : bool;
  LevelLower : bool;
  CompactFull : bool;
  CompactSimple : bool;
  isTerminal : bool;
  jsonFmt : option prettyjson_Formatter;
  once_done : bool
}.

(** [New()] of the older variant. *)
Definition New : Formatter :=
  {| LevelLetters := 3; LevelUpper := true; LevelLower := false;
     CompactFull := false; CompactSimple := true;
     isTerminal := false; jsonFmt := None; once_done := false |}.

(** The same options in the struct of the richer variant, its further
    fields at their zero values. *)
Definition widen (f : Formatter) :=
  mkFormatter (LevelLetters f) (LevelUpper f) (LevelLower f)
    (CompactFull f) (CompactSimple f) false false false false None
    (isTerminal f) (jsonFmt f) (once_done f).

(** [f.Do(func() {...})]. *)
Definition Do (f : Formatter) (entry : Entry) : Formatter :=
  if once_done f then f
  else
    {| LevelLetters := LevelLetters f; LevelUpper := LevelUpper f;
       LevelLower := LevelLower f; CompactFull := CompactFull f;
       CompactSimple := CompactSimple f;
       isTerminal :=
         match Logger entry with
         | Some (OsFile tty) => tty
         | _ => isTerminal f
         end;
       jsonFmt := Some {| Indent := 1 |}; once_done := true |}.

Definition with_LevelLetters (n : Z) (f : Formatter) : Formatter :=
  {| LevelLetters := n; LevelUpper := LevelUpper f;
     LevelLower := LevelLower f; CompactFull := CompactFull f;
     CompactSimple := CompactSimple f; isTerminal := isTerminal f;
     jsonFmt := jsonFmt f; once_done := once_done f |}.

(** The loop over [entry.Data] that lists every key and measures the
    longest. *)
Fixpoint gather_from (ks : list string) (keySize : Z)
    (kvs : list (string * Value)) : list string * Z :=
  match kvs with
  | [] => (ks, keySize)
  | (k, _) :: rest =>
      let n := Bytes.len k in
      gather_from (ks ++ [k]) (if n >? keySize then n else keySize) rest
  end.

Definition gather (entry : Entry) : list string * Z :=
  gather_from [] 5 (map_to_list (Data entry)).

Section Format.
Context `{L : Libs} `{J : RawMarshal}.

(** The [Fprintf] of the header: time, level, prefix and message. *)
Definition header (f : Formatter) (entry : Entry) : string :=
  timeColour (widen f) (TimeFormat.stamp (Time entry)) +:+ " " +:+
  levelColour (widen f) (Level entry) (levelText (widen f) entry) +:+ " " +:+
  compose_prefix (widen f) entry +:+ Message entry.

(** One iteration of the field loop for a key that is not skipped. *)
Definition field_entry (f : Formatter) (entry : Entry) (keySize : Z)
    (key : string) : result string :=
  let value := default nil_value (Data entry !! key) in
  d ← prettify (widen f) (json_Marshal value);
  let data := or_fallback d in
  if isTerminal f then
    let l := keySize - Bytes.len key in
    pad ← bytes_Repeat Bytes.bSpace l;
    mret (Bytes.bNewline +:+ "  " +:+ dataColour (widen f) key +:+ ": " +:+
          pad +:+ layout (widen f) keySize data)
  else mret ("  " +:+ key +:+ "=" +:+ data).

Fixpoint write_fields (f : Formatter) (entry : Entry) (keySize : Z)
    (prefix : string) (ks : list string) (b : string) : result string :=
  match ks with
  | [] => Ok b
  | key :: rest =>
      if is_context_key key && nonempty prefix
      then write_fields f entry keySize prefix rest b
      else
        s ← field_entry f entry keySize key;
        write_fields f entry keySize prefix rest (b +:+ s)
  end.

(** The body of the older [Format], on the formatter as [Do] and the
    write-back of [LevelLetters] left it. *)
Definition Format_body (f : Formatter) (entry : Entry) : result string :=
  let b := default "" (Buffer entry) in
  let '(ks, keySize) := gather entry in
  let ks := sort_Strings ks in
  let keySize := clamp_keySize keySize in
  let b := b +:+ header f entry in
  b ← write_fields f entry keySize (compose_prefix (widen f) entry) ks b;
  mret (b +:+ Bytes.bNewline).

(** The older [Formatter.Format]. *)
Definition Format (f : Formatter) (entry : Entry) : Formatter * result string :=
  let f := Do f entry in
  let f := with_LevelLetters (coerce_letters (LevelLetters f)) f in
  (f, Format_body f entry).

(** The keys the field loop does not skip, and their entries when the
    output is not a terminal. *)
Definition printed (f : Formatter) (entry : Entry) (ks : list string)
  : list string :=
  filter (λ k, (is_context_key k &&
                nonempty (compose_prefix (widen f) entry)) = false) ks.

Definition key_value_pair (entry : Entry) (key : string) : string :=
  "  " +:+ key +:+ "=" +:+
  or_fallback (json_Marshal (default nil_value (Data entry !! key))).

End Format.

End Legacy.

(** ** Further notions used to state what the code does *)

Module Notions.

(** The order of the generic fields: greater priority first, then
    smaller hint rank, then by name. *)
Definition listed_before (o : gmap string Z) (hint : list string)
    (a b : string) : Prop :=
  index0 o b < index0 o a ∨
  (index0 o a = index0 o b ∧
   (Spec.hint_rank hint a < Spec.hint_rank hint b ∨
    (Spec.hint_rank hint a = Spec.hint_rank hint b ∧
     strings_Compare a b < 0))).

(** A context field that makes the prefix non-empty when the output is
    not a terminal: a string under ["user"], a non-empty string under
    ["rpc"] or ["prefix"]. *)
Definition has_context (entry : Entry) : bool :=
  match string_field entry "user" with
  | Some _ => true
  | None =>
      nonempty (default "" (string_field entry "rpc")) ||
      nonempty (default "" (string_field entry "prefix"))
  end.

(** The number of bytes of a text that are newlines. *)
Fixpoint newlines (s : string) : nat :=
  match s with
  | EmptyString => O
  | String c s' =>
      (if Ascii.eqb c Bytes.newline then 1 else 0)%nat + newlines s'
  end.

Fixpoint ends_with_newline (s : string) : bool :=
  match s with
  | EmptyString => false
  | String c EmptyString => Ascii.eqb c Bytes.newline
  | String _ rest => ends_with_newline rest
  end.

Fixpoint starts_with (p s : string) : bool :=
  match p, s with
  | EmptyString, _ => true
  | String a p', String b s' => Ascii.eqb a b && starts_with p' s'
  | String _ _, EmptyString => false
  end.

End Notions.

(** ** Further records and formatters to run the code on *)

Module Examples.

(** [json.Marshal] on the value itself giving what it gives on the
    portrayed value. *)
#[export] Instance raw : RawMarshal := {| json_Marshal := marshal |}.

(** [New().Order(5, "a").Order(-1, "b")]. *)
Definition prioritised : Formatter := Order (Order New 5 ["a"]) (-1) ["b"].

Definition abc : Entry :=
  Plain.record InfoLevel "ready"
    [("a", Plain.VNumber "1"); ("b", Plain.VNumber "2");
     ("c", Plain.VNumber "3")].

(** A record with a user, a number under ["rpc"] and one more field. *)
Definition with_user : Entry :=
  Plain.record InfoLevel "ready"
    [("user", Plain.VString "bob"); ("rpc", Plain.VNumber "42");
     ("k", Plain.VNumber "1")].


(** A value [json.Marshal] fails on, such as a channel. *)
Definition unmarshalable : Value :=
  {| dyn := DOther None None; marshal := None |}.

Definition with_channel : Entry :=
  Plain.record InfoLevel "ready" [("ch", unmarshalable)].

End Examples.

(** * Proofs *)

(** ** Byte strings *)

Lemma append_cons (c : ascii) (s t : string) :
  String c s +:+ t = String c (s +:+ t).
Proof. reflexivity. Qed.

Lemma append_nil_r (s : string) : s +:+ "" = s.
Proof. induction s as [|c s IH]; [done|]. by rewrite append_cons, IH. Qed.

Lemma append_assoc (s t u : string) : (s +:+ t) +:+ u = s +:+ (t +:+ u).
Proof. induction s as [|c s IH]; [done|]. by rewrite !append_cons, IH. Qed.

Lemma length_map_bytes (f : ascii → ascii) (s : string) :
  String.length (Bytes.map_bytes f s) = String.length s.
Proof. induction s as [|c s IH]; simpl; [done|]. by rewrite IH. Qed.

Lemma len_ToUpper (s : string) : Bytes.len (Bytes.ToUpper s) = Bytes.len s.
Proof. unfold Bytes.len, Bytes.ToUpper. by rewrite length_map_bytes. Qed.

Lemma upper_byte_idemp (c : ascii) :
  Bytes.upper_byte (Bytes.upper_byte c) = Bytes.upper_byte c.
Proof.
  destruct c as [[] [] [] [] [] [] [] []]; reflexivity.
Qed.

Lemma ToUpper_idemp (s : string) :
  Bytes.ToUpper (Bytes.ToUpper s) = Bytes.ToUpper s.
Proof.
  unfold Bytes.ToUpper.
  induction s as [|c s IH]; simpl; [done|].
  by rewrite upper_byte_idemp, IH.
Qed.

Lemma len_fold_case (upper lower : bool) (s : string) :
  Bytes.len (fold_case upper lower s) = Bytes.len s.
Proof.
  unfold fold_case. destruct upper, lower; rewrite ?len_ToUpper; done.
Qed.

(** Whatever [LevelUpper] says, [LevelLower] upper-cases. *)
Lemma fold_case_lower (upper : bool) (s : string) :
  fold_case upper true s = Bytes.ToUpper s.
Proof. unfold fold_case. destruct upper; [apply ToUpper_idemp | done]. Qed.

(** ** The level abbreviation *)

Lemma effective_width_range (n : Z) : 1 ≤ Spec.effective_width n ≤ 5.
Proof. unfold Spec.effective_width. destruct (Z.leb_spec n 0); lia. Qed.

Lemma effective_width_cases (n : Z) :
  let w := Spec.effective_width n in
  w = 1 ∨ w = 2 ∨ w = 3 ∨ w = 4 ∨ w = 5.
Proof. pose proof (effective_width_range n). simpl. lia. Qed.

(** The slices of lines 209 and 211 stay within the texts. *)
Lemma select_text_in_range (l : logrus_Level) (n : Z) :
  let w := coerce_letters n in
  (w >=? 5) = false →
  0 ≤ w ≤ Bytes.len (if w >? 3 then levelText5 l else levelText3 l).
Proof.
  cbv zeta. unfold coerce_letters. intros Hw.
  destruct (Z.leb_spec n 0) as [Hn|Hn].
  - destruct l; vm_compute; split; intros ?; discriminate.
  - rewrite Z.geb_leb in Hw. apply Z.leb_gt in Hw.
    destruct (Z.gtb_spec n 3) as [H3|H3].
    + assert (n = 4) as -> by lia. destruct l; vm_compute; split; intros ?; discriminate.
    + assert (0 ≤ n ≤ 3) as Hr by lia.
      destruct l; change (Bytes.len _) with 3; lia.
Qed.

Lemma select_text_spec (l : logrus_Level) (n : Z) :
  let w := Spec.effective_width n in
  select_text l (coerce_letters n) = Bytes.prefix_of w (Spec.level_form l w).
Proof.
  unfold Spec.effective_width, coerce_letters, select_text, Spec.level_form.
  destruct (Z.leb_spec n 0) as [Hn|Hn]; simpl; [done|].
  destruct (Z.geb_spec n 5) as [H5|H5].
  - rewrite Z.min_r, Z.max_r by lia. by destruct l.
  - rewrite Z.min_l, Z.max_r by lia.
    destruct (Z.gtb_spec n 3) as [H3|H3], (Z.leb_spec n 3); try lia; done.
Qed.

Lemma len_select_text (l : logrus_Level) (n : Z) :
  Bytes.len (select_text l (coerce_letters n)) = Spec.effective_width n.
Proof.
  rewrite select_text_spec.
  destruct (effective_width_cases n) as [H|[H|[H|[H|H]]]]; simpl in H;
    rewrite H; by destruct l.
Qed.

(** ** The formatter's own state *)

Section State.
Context `{L : Libs}.

Lemma LevelLetters_Do (f : Formatter) (entry : Entry) :
  LevelLetters (Do f entry) = LevelLetters f.
Proof. unfold Do. by destruct (once_done f). Qed.

Lemma Format_state (f : Formatter) (entry : Entry) :
  (Format f entry).1 =
  with_LevelLetters (coerce_letters (LevelLetters f)) (Do f entry).
Proof. unfold Format. simpl. by rewrite LevelLetters_Do. Qed.

Lemma Format_result (f : Formatter) (entry : Entry) :
  (Format f entry).2 = Format_body (Format f entry).1 entry.
Proof. reflexivity. Qed.

(** C6: the width the abbreviation is cut to is [Spec.effective_width]
    of [LevelLetters] (3 for values [<= 0], 5 for values above 5, the
    value itself in between); the abbreviation shown is the case-folded
    prefix of that width of the 3-letter form for widths up to 3 and of
    the 5-letter form above, and it is never empty. *)
Theorem level_abbreviation_width (f : Formatter) (entry : Entry) :
  let f' := (Format f entry).1 in
  let n := LevelLetters f in
  let w := Spec.effective_width n in
  w = (if n <=? 0 then 3 else if n >? 5 then 5 else n) ∧
  1 ≤ w ≤ 5 ∧
  select_text (Level entry) (LevelLetters f') =
    Bytes.prefix_of w (Spec.level_form (Level entry) w) ∧
  Spec.level_form (Level entry) w =
    (if w <=? 3 then levelText3 (Level entry) else levelText5 (Level entry)) ∧
  levelText f' entry =
    fold_case (LevelUpper f) (LevelLower f)
      (Bytes.prefix_of w (Spec.level_form (Level entry) w)) ∧
  Bytes.len (levelText f' entry) = w ∧
  levelText f' entry ≠ "".
Proof.
  intros f' n w.
  assert (LevelLetters f' = coerce_letters n) as Hn.
  { unfold f'. by rewrite Format_state. }
  assert (LevelUpper f' = LevelUpper f ∧ LevelLower f' = LevelLower f)
    as [Hu Hl].
  { unfold f'. rewrite Format_state. unfold Do.
    by destruct (once_done f). }
  assert (Bytes.len (levelText f' entry) = w) as Hlen.
  { unfold levelText. rewrite len_fold_case, Hn. apply len_select_text. }
  split_and!.
  - unfold w, Spec.effective_width.
    destruct (Z.leb_spec n 0), (Z.gtb_spec n 5); lia.
  - apply effective_width_range.
  - apply effective_width_range.
  - rewrite Hn. apply select_text_spec.
  - done.
  - unfold levelText. rewrite Hu, Hl, Hn. f_equal. apply select_text_spec.
  - done.
  - intros Heq. rewrite Heq in Hlen. pose proof (effective_width_range n).
    change (Bytes.len "") with 0 in Hlen. fold w in H. lia.
Qed.

(** The options that lay out the message survive a call. *)
Lemma Format_layout_options (f : Formatter) (entry : Entry) :
  let f' := (Format f entry).1 in
  MessageAfter f' = MessageAfter f ∧
  CompactMessage f' = CompactMessage f ∧
  ParagraphAll f' = ParagraphAll f ∧
  ParagraphBlock f' = ParagraphBlock f.
Proof.
  intros f'. unfold f'. rewrite Format_state. unfold Do.
  destruct (once_done f); simpl; done.
Qed.

(** C10: a call leaves every configuration field as it was, except
    that [LevelLetters] becomes 3 when it was [<= 0] (a value above 5
    stays); the interactivity flag and the pretty-printer are set by the
    first call only. *)
Theorem Format_frame (f : Formatter) (entry : Entry) :
  let f' := (Format f entry).1 in
  LevelLetters f' = (if LevelLetters f <=? 0 then 3 else LevelLetters f) ∧
  LevelUpper f' = LevelUpper f ∧
  LevelLower f' = LevelLower f ∧
  CompactFull f' = CompactFull f ∧
  CompactSimple f' = CompactSimple f ∧
  MessageAfter f' = MessageAfter f ∧
  CompactMessage f' = CompactMessage f ∧
  ParagraphAll f' = ParagraphAll f ∧
  ParagraphBlock f' = ParagraphBlock f ∧
  Ordering f' = Ordering f ∧
  once_done f' = true ∧
  isTerminal f' =
    (if once_done f then isTerminal f
     else match Logger entry with
          | Some (OsFile tty) => tty
          | _ => isTerminal f
          end) ∧
  jsonFmt f' =
    (if once_done f then jsonFmt f else Some {| Indent := 1 |}).
Proof.
  intros f'. unfold f'. rewrite Format_state. unfold Do, coerce_letters.
  destruct (once_done f) eqn:Honce; simpl; rewrite ?Honce; split_and!; done.
Qed.

End State.

(** ** Panics and slips *)

Section Defects.
Context `{L : Libs}.

(** A second call finds the [Once] fired and changes nothing. *)
Lemma Format_state_again (f : Formatter) (e1 e2 : Entry) :
  (Format (Format f e1).1 e2).1 = (Format f e1).1.
Proof.
  rewrite !Format_state. unfold Do, coerce_letters.
  destruct f as [n ? ? ? ? ? ? ? ? ? ? ? once]; simpl.
  destruct once; simpl; destruct (n <=? 0) eqn:Hn; simpl; rewrite ?Hn; done.
Qed.

Lemma collect_from_bad_order (prefix : string) (kvs : list (string * Value))
    (c : collected) (v : Value) :
  ("_order", v) ∈ kvs →
  (∀ l, dyn v ≠ DStrings l) →
  is_ok (collect_from prefix c kvs) = false.
Proof.
  intros Hin Hdyn. revert c.
  induction kvs as [|kv rest IH]; intros c; [by apply elem_of_nil in Hin|].
  apply elem_of_cons in Hin as [<-|Hin]; simpl.
  - destruct (dyn v) eqn:Hv; try done. by destruct (Hdyn l).
  - destruct (collect_step prefix c kv) as [c'|why]; simpl; [|done].
    by apply IH.
Qed.

(** Whatever else the record holds, a value under ["_order"] that is
    not a [[]string] makes the call panic at line 265. *)
Lemma Format_bad_order (f : Formatter) (entry : Entry) (v : Value) :
  Data entry !! "_order" = Some v →
  (∀ l, dyn v ≠ DStrings l) →
  is_ok (Format f entry).2 = false.
Proof.
  intros Hv Hdyn. rewrite Format_result. unfold Format_body.
  set (f' := (Format f entry).1).
  assert (is_ok (collect f' entry) = false) as Hc.
  { unfold collect. eapply collect_from_bad_order; [|done].
    by apply elem_of_map_to_list. }
  by destruct (collect f' entry).
Qed.

(** In interactive mode a key longer than the key column makes the
    call panic at line 341. *)
Lemma field_entry_long_key (f : Formatter) (entry : Entry) (keySize : Z)
    (key : string) :
  isTerminal f = true →
  keySize < Bytes.len key →
  is_ok (field_entry f entry keySize key) = false.
Proof.
  intros Ht Hlen. unfold field_entry. rewrite Ht.
  destruct (render_value f _) as [data|why]; simpl; [|done].
  unfold bytes_Repeat.
  destruct (Z.ltb_spec (keySize - Bytes.len key) 0); [done|lia].
Qed.

(** C2: a record with a Go string under ["_order"] makes [Format]
    panic (the type assertion of line 265 is unchecked); no byte
    sequence is returned. *)
Theorem Format_panics_on_order_value :
  (Format New (Plain.record InfoLevel "ready"
                 [("_order", Plain.VString "z,a")])).2 =
  Panic "interface conversion: interface {} is not []string".
Proof. vm_compute. reflexivity. Qed.

(** C3: with an empty prefix the cuddled message follows the level
    abbreviation with no space between them. *)
Theorem cuddled_message_joins_level :
  (Format New (Plain.record InfoLevel "ready" [])).2 =
  Ok ("[Jan 02 15:04:05.000] INFready" +:+ Bytes.bNewline).
Proof. vm_compute. reflexivity. Qed.

(** C4: with [LevelLower] set and [LevelUpper] not, the abbreviation
    shown is upper case, not the lower-case fold ["inf"]. *)
Theorem lower_option_shows_upper :
  let entry := Plain.record InfoLevel "ready" [] in
  let f' := (Format Plain.lower_only entry).1 in
  levelText f' entry = "INF" ∧
  Bytes.ToLower (select_text (Level entry) (LevelLetters f')) = "inf" ∧
  (Format Plain.lower_only entry).2 =
    Ok ("[Jan 02 15:04:05.000] INFready" +:+ Bytes.bNewline).
Proof. vm_compute. done. Qed.

End Defects.

(** ** The shape of the output *)

Section Shape.
Context `{L : Libs}.

Lemma write_fields_acc (f : Formatter) (entry : Entry) (keySize : Z)
    (ks : list string) (b : string) :
  write_fields f entry keySize ks b =
  (s ← field_block f entry keySize ks; mret (b +:+ s)).
Proof.
  unfold field_block. revert b.
  induction ks as [|key rest IH]; intros b; simpl.
  - by rewrite append_nil_r.
  - destruct (field_entry f entry keySize key) as [s|why]; simpl; [|done].
    change ("" +:+ s) with s. rewrite (IH (b +:+ s)), (IH s).
    destruct (write_fields f entry keySize rest "") as [t|why]; simpl;
      [|done].
    by rewrite append_assoc.
Qed.

Lemma cuddleMessage_spec (f : Formatter) (entry : Entry) (ks : list string) :
  cuddleMessage f entry ks =
  Spec.on_header_line (MessageAfter f) (CompactMessage f) ks (Message entry).
Proof.
  unfold cuddleMessage, Spec.on_header_line.
  assert ((Z.of_nat (length ks) =? 0) = bool_decide (ks = [])) as ->.
  { destruct ks; [done|]. rewrite bool_decide_eq_false_2 by done.
    apply Z.eqb_neq. simpl. lia. }
  assert ((Bytes.len (Message entry) <? 100) =
          bool_decide (Bytes.len (Message entry) < 100)) as ->; [|done].
  destruct (Z.ltb_spec (Bytes.len (Message entry)) 100).
  - by rewrite bool_decide_eq_true_2.
  - rewrite bool_decide_eq_false_2; [done|lia].
Qed.

(** Neither the header nor the field list nor the field block reads
    the message. *)
Lemma header_with_message (f : Formatter) (entry : Entry) (m : string) :
  header f (Spec.with_message m entry) = header f entry.
Proof. reflexivity. Qed.

Lemma field_names_with_message (f : Formatter) (entry : Entry) (m : string) :
  field_names f (Spec.with_message m entry) = field_names f entry.
Proof. reflexivity. Qed.

Lemma field_block_with_message (f : Formatter) (entry : Entry) (m : string)
    (keySize : Z) (ks : list string) :
  field_block f (Spec.with_message m entry) keySize ks =
  field_block f entry keySize ks.
Proof.
  unfold field_block. generalize "".
  induction ks as [|key rest IH]; intros b; simpl; [done|].
  change (field_entry f (Spec.with_message m entry) keySize key)
    with (field_entry f entry keySize key).
  destruct (field_entry f entry keySize key); simpl; [apply IH|done].
Qed.

(** The output of a call that returns, piece by piece. *)
Lemma Format_body_shape (f : Formatter) (entry : Entry) (out : string) :
  Format_body f entry = Ok out →
  ∃ ks w block,
    field_names f entry = Ok ks ∧
    key_column f entry = Ok w ∧
    field_block f entry w ks = Ok block ∧
    out = default "" (Buffer entry) +:+ header f entry +:+
          (if cuddleMessage f entry ks then Message entry else "") +:+
          block +:+ trailer f entry (cuddleMessage f entry ks).
Proof.
  unfold Format_body, field_names, key_column. intros Hout.
  destruct (collect f entry) as [c|why]; simpl in *; [|done].
  rewrite write_fields_acc in Hout.
  destruct (field_block f entry _ _) as [block|why] eqn:Hblock; simpl in *;
    [|done].
  eexists _, _, block. split_and!; [done..|].
  injection Hout as <-.
  destruct (cuddleMessage f entry _); by rewrite ?append_assoc.
Qed.

(** C5: the message is written right after the header exactly when
    [message_after] is off, or [compact_message] is on, the generic
    field list is empty and the message is shorter than 100 bytes;
    otherwise it comes indented by two spaces on a line of its own
    after the field block. *)
Theorem message_placement (f : Formatter) (entry : Entry) (out : string) :
  (Format f entry).2 = Ok out →
  let f' := (Format f entry).1 in
  ∃ ks w block,
    field_names f' entry = Ok ks ∧
    key_column f' entry = Ok w ∧
    field_block f' entry w ks = Ok block ∧
    out = default "" (Buffer entry) +:+ header f' entry +:+
      (if Spec.on_header_line (MessageAfter f) (CompactMessage f) ks
            (Message entry)
       then Message entry +:+ block +:+ Bytes.bNewline +:+
            (if ParagraphAll f then Bytes.bNewline else "")
       else block +:+ Bytes.bNewline +:+
            "  " +:+ Message entry +:+ Bytes.bNewline +:+
            (if ParagraphAll f || ParagraphBlock f then Bytes.bNewline
             else "")).
Proof.
  rewrite Format_result. intros Hout f'.
  destruct (Format_body_shape _ _ _ Hout) as (ks & w & block & Hks & Hw & Hb & ->).
  exists ks, w, block. split_and!; [done..|].
  destruct (Format_layout_options f entry) as (Hma & Hcm & Hpa & Hpb).
  fold f' in Hma, Hcm, Hpa, Hpb |- *.
  rewrite cuddleMessage_spec, Hma, Hcm. unfold trailer. rewrite Hpa, Hpb.
  by destruct (Spec.on_header_line _ _ _ _).
Qed.

End Shape.


(** ** Non-interactive output *)

Section NonInteractive.
Context `{L : Libs}.

Lemma field_entry_plain (f : Formatter) (entry : Entry) (keySize : Z)
    (key : string) :
  isTerminal f = false →
  field_entry f entry keySize key = Ok (key_value_pair entry key).
Proof.
  intros Ht. unfold field_entry, render_value, prettify, key_value_pair.
  rewrite Ht. by destruct (marshal_value _).
Qed.

Lemma field_block_plain (f : Formatter) (entry : Entry) (keySize : Z)
    (ks : list string) :
  isTerminal f = false →
  field_block f entry keySize ks =
  Ok (Spec.join (key_value_pair entry <$> ks)).
Proof.
  intros Ht. induction ks as [|key rest IH]; [done|].
  unfold field_block in *. simpl.
  rewrite field_entry_plain by done. simpl.
  change ("" +:+ key_value_pair entry key) with (key_value_pair entry key).
  rewrite write_fields_acc. unfold field_block. by rewrite IH.
Qed.

(** Outside interactive mode the loops cannot panic: the call returns
    unless the type assertion on ["_order"] fails. *)
Lemma Format_body_plain_returns (f : Formatter) (entry : Entry) :
  isTerminal f = false →
  is_ok (collect f entry) = true →
  is_ok (Format_body f entry) = true.
Proof.
  intros Ht Hc. unfold Format_body.
  destruct (collect f entry) as [c|why]; [simpl|done].
  rewrite write_fields_acc, field_block_plain by done. done.
Qed.

(** C9, amended: in non-interactive mode the field entries are
    appended to the header (and the cuddled message) with nothing in
    between, each as two spaces, the key, [=] and the value; when the
    message is cuddled the output is that text and one newline, and one
    more newline when [ParagraphAll] is set. *)
Theorem plain_fields_inline (f : Formatter) (entry : Entry) (out : string) :
  isTerminal (Format f entry).1 = false →
  (Format f entry).2 = Ok out →
  let f' := (Format f entry).1 in
  ∃ ks,
    field_names f' entry = Ok ks ∧
    let cuddled := cuddleMessage f' entry ks in
    let line :=
      default "" (Buffer entry) +:+ header f' entry +:+
      (if cuddled then Message entry else "") +:+
      Spec.join (key_value_pair entry <$> ks) in
    out = line +:+ trailer f' entry cuddled ∧
    (cuddled = true →
     out = line +:+ Bytes.bNewline +:+
           (if ParagraphAll f then Bytes.bNewline else "")).
Proof.
  rewrite Format_result. intros Ht Hout f'.
  destruct (Format_body_shape _ _ _ Hout)
    as (ks & w & block & Hks & Hw & Hb & ->).
  fold f' in Ht, Hks, Hb |- *.
  rewrite field_block_plain in Hb by done. injection Hb as <-.
  exists ks. split; [done|]. cbv zeta.
  assert (ParagraphAll f' = ParagraphAll f) as Hpa.
  { by destruct (Format_layout_options f entry) as (_ & _ & ? & _). }
  split.
  - by rewrite !append_assoc.
  - intros ->. unfold trailer. simpl in Hpa |- *. by rewrite Hpa, !append_assoc.
Qed.

End NonInteractive.

(** ** The rescue of empty objects *)

Section Rescue.
Context `{L : Libs}.

Lemma len_pos_nonempty (s : string) : (Bytes.len s >? 0) = nonempty s.
Proof. by destruct s. Qed.

(** C8, amended: a value that marshals to the empty object is rendered
    as the serialization of its error text when it is an error with a
    non-empty text, and of its stringer text when it is no error but a
    stringer with a non-empty text; an error value is not asked for its
    stringer text, and without such a text the empty object stays. *)
Theorem empty_object_rescue (value : Value) :
  marshal value = Some "{}" →
  marshal_value value =
    Some (match Spec.rescue_text_by_type value with
          | Some text => json_Marshal_string text
          | None => "{}"
          end) ∧
  (∀ (f : Formatter) (entry : Entry) (keySize : Z) (key : string),
     isTerminal f = false →
     Data entry !! key = Some value →
     field_entry f entry keySize key =
       Ok ("  " +:+ key +:+ "=" +:+
           match Spec.rescue_text_by_type value with
           | Some text => json_Marshal_string text
           | None => "{}"
           end)).
Proof.
  intros Hm.
  assert (marshal_value value =
    Some (match Spec.rescue_text_by_type value with
          | Some text => json_Marshal_string text
          | None => "{}"
          end)) as Hv.
  { unfold marshal_value, Spec.rescue_text_by_type. rewrite Hm. simpl.
    destruct (dyn value) as [s|l|[t|] [u|]]; try done;
      rewrite len_pos_nonempty; by destruct (nonempty _). }
  split; [done|].
  intros f entry keySize key Ht Hkey.
  rewrite field_entry_plain by done. unfold key_value_pair.
  rewrite Hkey. change (default nil_value (Some value)) with value.
  by rewrite Hv.
Qed.

(** Where the two probes differ: only on an error whose text is empty. *)
Lemma rescue_text_by_type_agrees (value : Value) :
  (∀ str, dyn value ≠ DOther (Some "") str) →
  Spec.rescue_text_by_type value = Spec.rescue_text value.
Proof.
  unfold Spec.rescue_text_by_type, Spec.rescue_text. intros Hne.
  destruct (dyn value) as [s|l|[t|] [u|]]; try reflexivity.
  destruct t; [by destruct (Hne (Some u))|reflexivity].
Qed.

End Rescue.

(** ** The compaction regexp against runs of whitespace *)

Section Compaction.

Import Regexp.

Local Abbreviation trailing := (star_then is_space (λ _, Some O)).

Lemma newline_is_space (c : ascii) :
  Ascii.eqb c Bytes.newline = true → is_space c = true.
Proof. intros ->%Ascii.eqb_eq. reflexivity. Qed.

Lemma not_space_not_newline (c : ascii) :
  is_space c = false → Ascii.eqb c Bytes.newline = false.
Proof.
  intros Hc. destruct (Ascii.eqb c Bytes.newline) eqn:Hn; [|done].
  by rewrite (newline_is_space _ Hn) in Hc.
Qed.

Lemma uniform_cons (w : bool) (c : ascii) (r : string) :
  Spec.uniform w (String c r) = true ↔
  is_space c = w ∧ Spec.uniform w r = true.
Proof.
  simpl. rewrite andb_true_iff.
  by destruct (is_space c), w; simpl; intuition.
Qed.

(** The trailing [\s*] takes the whole run. *)
Lemma trailing_run (r t : string) :
  Spec.uniform true r = true →
  Spec.starts_with_space t = false →
  trailing (r +:+ t) = Some (String.length r).
Proof.
  intros Hr Ht. induction r as [|c r IH].
  - destruct t as [|c t]; [done|]. simpl in *. by rewrite Ht.
  - apply uniform_cons in Hr as [Hc Hr]. rewrite append_cons. simpl.
    by rewrite Hc, (IH Hr).
Qed.

(** At the start of a run the pattern matches the whole run if the run
    holds a newline, and does not match otherwise. *)
Lemma reCompact_match_run (r t : string) :
  Spec.uniform true r = true →
  Spec.starts_with_space t = false →
  reCompact_match (r +:+ t) =
  if Bytes.contains_newline r then Some (String.length r) else None.
Proof.
  intros Hr Ht. unfold reCompact_match. induction r as [|c r IH].
  - destruct t as [|c t]; [done|]. simpl in *.
    by rewrite Ht, (not_space_not_newline _ Ht).
  - apply uniform_cons in Hr as [Hc Hr]. rewrite append_cons.
    cbn [star_then Bytes.contains_newline]. rewrite Hc, (IH Hr).
    destruct (Bytes.contains_newline r); [by rewrite orb_true_r|].
    rewrite orb_false_r. cbn [newline_then].
    destruct (Ascii.eqb c Bytes.newline); [|done].
    by rewrite (trailing_run _ _ Hr Ht).
Qed.

Lemma reCompact_match_other (c : ascii) (s : string) :
  is_space c = false → reCompact_match (String c s) = None.
Proof.
  intros Hc. unfold reCompact_match. simpl.
  by rewrite Hc, (not_space_not_newline _ Hc).
Qed.

Lemma replace_from_skip (repl r t : string) :
  replace_from repl (String.length r) (r +:+ t) = replace_from repl O t.
Proof. induction r as [|c r IH]; [done|]. by rewrite append_cons. Qed.

Lemma replace_from_other (repl r t : string) :
  Spec.uniform false r = true →
  replace_from repl O (r +:+ t) = r +:+ replace_from repl O t.
Proof.
  intros Hr. induction r as [|c r IH]; [done|].
  apply uniform_cons in Hr as [Hc Hr]. rewrite !append_cons.
  cbn [replace_from]. rewrite (reCompact_match_other _ _ Hc).
  by rewrite (IH Hr).
Qed.

Lemma replace_from_plain_run (repl r t : string) :
  Spec.uniform true r = true →
  Spec.starts_with_space t = false →
  Bytes.contains_newline r = false →
  replace_from repl O (r +:+ t) = r +:+ replace_from repl O t.
Proof.
  intros Hr Ht Hn. induction r as [|c r IH]; [done|].
  pose proof (reCompact_match_run _ t Hr Ht) as Hm. rewrite Hn in Hm.
  apply uniform_cons in Hr as [Hc Hr].
  simpl in Hn. apply orb_false_iff in Hn as [_ Hn].
  rewrite !append_cons in *. cbn [replace_from]. rewrite Hm.
  by rewrite (IH Hr Hn).
Qed.

Lemma replace_from_newline_run (repl r t : string) :
  r ≠ "" →
  Spec.uniform true r = true →
  Spec.starts_with_space t = false →
  Bytes.contains_newline r = true →
  replace_from repl O (r +:+ t) = repl +:+ replace_from repl O t.
Proof.
  intros Hne Hr Ht Hn.
  pose proof (reCompact_match_run _ t Hr Ht) as Hm. rewrite Hn in Hm.
  destruct r as [|c r]; [done|].
  rewrite !append_cons in *. cbn [replace_from]. rewrite Hm.
  cbn [String.length]. by rewrite replace_from_skip.
Qed.

Lemma runs_well_formed (s : string) : Spec.well_formed (Spec.runs s).
Proof.
  induction s as [|c s IH]; [done|]. simpl.
  destruct (Spec.runs s) as [|[w' r] rest]; simpl.
  - rewrite eqb_reflx. done.
  - destruct IH as (Hne & Hu & Hk & Hrest).
    destruct (Bool.eqb (is_space c) w') eqn:Hw; simpl.
    + apply eqb_prop in Hw. subst w'. rewrite eqb_reflx. done.
    + rewrite eqb_reflx. split_and!; try done.
      intros [= Hk']. rewrite Hk' in Hw. by rewrite eqb_reflx in Hw.
Qed.

Lemma runs_join (s : string) : Spec.join ((Spec.runs s).*2) = s.
Proof.
  induction s as [|c s IH]; [done|]. simpl.
  destruct (Spec.runs s) as [|[w' r] rest]; simpl in *.
  - by rewrite <- IH.
  - destruct (Bool.eqb (is_space c) w'); simpl; by rewrite <- IH.
Qed.

Lemma next_run_no_space (rest : list (bool * string)) :
  Spec.head_kind rest ≠ Some true →
  Spec.well_formed rest →
  Spec.starts_with_space (Spec.join (rest.*2)) = false.
Proof.
  destruct rest as [|[w r] rest]; [done|]. simpl.
  intros Hk (Hne & Hu & _).
  destruct w; [done|]. destruct r as [|c r]; [done|].
  apply uniform_cons in Hu as [Hc _]. by rewrite append_cons.
Qed.

Lemma replace_runs (rs : list (bool * string)) :
  Spec.well_formed rs →
  replace_from " " O (Spec.join (rs.*2)) =
  Spec.join (Spec.collapse_run <$> rs).
Proof.
  induction rs as [|[w r] rest IH]; [done|].
  intros (Hne & Hu & Hk & Hrest). specialize (IH Hrest).
  cbn [fmap list_fmap Spec.join snd]. unfold Spec.collapse_run at 1.
  cbn [fst snd].
  destruct w; cbn [andb].
  - pose proof (next_run_no_space _ Hk Hrest) as Ht.
    destruct (Bytes.contains_newline r) eqn:Hn.
    + by rewrite replace_from_newline_run, IH.
    + by rewrite replace_from_plain_run, IH.
  - by rewrite replace_from_other, IH.
Qed.

(** [reCompact.ReplaceAll(data, bSpace)] is the single-line form. *)
Lemma reCompact_single_line_form (data : string) :
  reCompact_ReplaceAll data Bytes.bSpace = Spec.single_line_form data.
Proof.
  unfold reCompact_ReplaceAll, Spec.single_line_form.
  rewrite <- (runs_join data) at 1.
  apply replace_runs, runs_well_formed.
Qed.

End Compaction.

(** ** Sorting *)

Section InsertionSort.
Context {A : Type} (less : A → A → bool) (R : relation A).
Hypothesis less_R : ∀ a b, less a b = true → R a b.
Hypothesis not_less_R : ∀ a b, less a b = false → R b a.

Lemma insert_by_perm (x : A) (l : list A) : insert_by less x l ≡ₚ x :: l.
Proof.
  induction l as [|y l IH]; simpl; [done|].
  destruct (less y x); [|done]. rewrite IH. apply Permutation_swap.
Qed.

Lemma sort_by_perm (l : list A) : sort_by less l ≡ₚ l.
Proof.
  induction l as [|x l IH]; simpl; [done|].
  by rewrite insert_by_perm, IH.
Qed.

Lemma insert_by_HdRel (a x : A) (l : list A) :
  R a x → HdRel R a l → HdRel R a (insert_by less x l).
Proof.
  intros Hax Hal. destruct l as [|y l]; simpl; [by constructor|].
  destruct (less y x); constructor; [|done].
  by inversion Hal.
Qed.

Lemma insert_by_sorted (x : A) (l : list A) :
  Sorted R l → Sorted R (insert_by less x l).
Proof.
  induction 1 as [|y l Hl IH Hy]; simpl; [by repeat constructor|].
  destruct (less y x) eqn:Hyx.
  - constructor; [done|]. apply insert_by_HdRel; auto.
  - repeat constructor; auto.
Qed.

Lemma sort_by_sorted (l : list A) : Sorted R (sort_by less l).
Proof.
  induction l as [|x l IH]; simpl; [constructor|].
  by apply insert_by_sorted.
Qed.

End InsertionSort.

Lemma StronglySorted_NoDup_strict {A} (R : relation A) (l : list A) :
  StronglySorted R l → NoDup l →
  StronglySorted (λ a b, R a b ∧ a ≠ b) l.
Proof.
  induction 1 as [|x l Hl IH Hx]; intros Hnd; [constructor|].
  apply NoDup_cons in Hnd as [Hin Hnd].
  constructor; [by apply IH|].
  rewrite Forall_forall in Hx |- *. intros y Hy. split; [by apply Hx|].
  by intros ->.
Qed.

Lemma Sorted_weaken {A} (R R' : relation A) (l : list A) :
  (∀ a b, R a b → R' a b) → Sorted R l → Sorted R' l.
Proof.
  intros HR. induction 1 as [|x l Hl IH Hx]; constructor; [done|].
  destruct Hx; constructor; auto.
Qed.

Lemma StronglySorted_weaken {A} (R R' : relation A) (l : list A) :
  (∀ a b, R a b → R' a b) → StronglySorted R l → StronglySorted R' l.
Proof.
  intros HR. induction 1 as [|x l Hl IH Hx]; constructor; [done|].
  eapply Forall_impl; [exact Hx|]. auto.
Qed.

Section Strings.

Lemma by_name_leb (a b : string) :
  bool_decide (strings_Compare a b < 1) = String.leb a b.
Proof.
  unfold strings_Compare, String.leb.
  by destruct (String.compare a b).
Qed.

Lemma by_name_le (a b : string) :
  bool_decide (strings_Compare a b < 1) = true ↔ String.le a b.
Proof.
  rewrite by_name_leb. unfold String.le.
  by destruct (String.leb a b).
Qed.

Lemma strings_Compare_lt (a b : string) :
  strings_Compare a b < 0 ↔ String.le a b ∧ a ≠ b.
Proof.
  unfold strings_Compare, String.le, String.leb.
  destruct (String.compare a b) eqn:Hc; simpl.
  - apply String.compare_eq_iff in Hc. split; [intros ?; lia|].
    by intros [_ ?].
  - split; [intros _|intros _; lia]. split; [done|].
    intros ->. pose proof (String.compare_antisym b b) as Hb.
    by rewrite Hc in Hb.
  - split; [intros ?; lia|]. by intros [[] _].
Qed.

Lemma strings_Compare_ge (a b : string) :
  ¬ strings_Compare a b < 0 → String.le b a.
Proof.
  unfold strings_Compare, String.le, String.leb.
  rewrite (String.compare_antisym a b).
  destruct (String.compare b a); simpl; [done|done|lia].
Qed.

End Strings.

Section Sorter.

Lemma Less_spec (s : sorter) (a b : string) :
  Less s a b = true ↔ Less_order s a b.
Proof.
  unfold Less, Less_order, rank_of. rewrite <- by_name_le.
  set (by_name := bool_decide _).
  destruct (order s) as [o|], (pri s) as [p|];
    repeat match goal with
    | |- context [?x <? ?y] => destruct (Z.ltb_spec x y)
    | |- context [?x >? ?y] => destruct (Z.gtb_spec x y)
    end; intuition (try congruence; try lia).
Qed.

Lemma Less_order_total (s : sorter) (a b : string) :
  Less_order s a b ∨ Less_order s b a.
Proof.
  unfold Less_order.
  destruct (Z.lt_trichotomy (rank_of (order s) a) (rank_of (order s) b))
    as [?|[?|?]]; [by right; left| |by left; left].
  destruct (Z.lt_trichotomy (rank_of (pri s) a) (rank_of (pri s) b))
    as [?|[?|?]]; [by left; right; split; [|left] |
                   | by right; right; split; [|left]].
  destruct (total String.le a b); [left|right]; right; split; auto.
Qed.

#[local] Instance Less_order_trans (s : sorter) : Transitive (Less_order s).
Proof.
  intros a b c. unfold Less_order. intros Hab Hbc.
  assert (String.le a b → String.le b c → String.le a c) by apply transitivity.
  intuition lia.
Qed.

Lemma Less_order_antisym (s : sorter) (a b : string) :
  Less_order s a b → Less_order s b a → a = b.
Proof.
  unfold Less_order. intros Hab Hba.
  assert (String.le a b ∧ String.le b a) as [??] by intuition lia.
  by apply (anti_symm String.le).
Qed.

Lemma Less_false (s : sorter) (a b : string) :
  Less s a b = false → Less_order s b a.
Proof.
  intros Hf. destruct (Less_order_total s a b) as [Hab|]; [|done].
  apply Less_spec in Hab. congruence.
Qed.

Lemma sort_Sort_perm (s : sorter) : sort_Sort s ≡ₚ keys s.
Proof. apply sort_by_perm. Qed.

Lemma sort_Sort_sorted (s : sorter) :
  StronglySorted (Less_order s) (sort_Sort s).
Proof.
  apply Sorted_StronglySorted; [apply _|].
  apply sort_by_sorted.
  - intros a b. apply Less_spec.
  - apply Less_false.
Qed.

(** Whatever algorithm [sort.Sort] runs, it leaves the keys in the one
    arrangement in which no key is [Less] than a key before it. *)
Lemma sort_Sort_unique (s : sorter) (l : list string) :
  l ≡ₚ keys s →
  Sorted (λ a b, Less s b a = false) l →
  l = sort_Sort s.
Proof.
  intros Hperm Hsorted.
  apply (StronglySorted_unique_strong (Less_order s)).
  - intros a b _ _. apply Less_order_antisym.
  - apply Sorted_StronglySorted; [apply _|].
    eapply Sorted_weaken; [|exact Hsorted]. intros a b. apply Less_false.
  - apply sort_Sort_sorted.
  - by rewrite Hperm, sort_Sort_perm.
Qed.

Lemma sort_Strings_perm (ks : list string) : sort_Strings ks ≡ₚ ks.
Proof. apply sort_by_perm. Qed.

Lemma sort_Strings_sorted (ks : list string) :
  StronglySorted String.le (sort_Strings ks).
Proof.
  apply Sorted_StronglySorted; [apply _|].
  apply sort_by_sorted.
  - intros a b Hab%bool_decide_eq_true.
    by apply strings_Compare_lt in Hab as [? _].
  - intros a b Hab%bool_decide_eq_false. by apply strings_Compare_ge.
Qed.

Lemma sort_Strings_unique (ks l : list string) :
  l ≡ₚ ks →
  Sorted (λ a b, ¬ strings_Compare b a < 0) l →
  l = sort_Strings ks.
Proof.
  intros Hperm Hsorted.
  apply (StronglySorted_unique String.le).
  - apply Sorted_StronglySorted; [apply _|].
    eapply Sorted_weaken; [|exact Hsorted]. intros a b.
    apply strings_Compare_ge.
  - apply sort_Strings_sorted.
  - by rewrite Hperm, sort_Strings_perm.
Qed.

Lemma sort_keys_perm (ordering : option (gmap string Z))
    (hint ks : list string) :
  sort_keys ordering hint ks ≡ₚ ks.
Proof.
  unfold sort_keys. destruct (_ && _).
  - apply sort_Strings_perm.
  - apply (sort_Sort_perm (mkSorter _ _ ks)).
Qed.

Lemma index_orders_lookup (i : Z) (hint : list string) (p : gmap string Z)
    (k : string) :
  index_orders i hint p !! k =
  match Spec.hint_index i hint k with
  | Some j => Some j
  | None => p !! k
  end.
Proof.
  revert i p. induction hint as [|x rest IH]; intros i p; simpl; [done|].
  rewrite IH. destruct (Spec.hint_index (i + 1) rest k); [done|].
  destruct (String.eqb_spec x k) as [->|Hne].
  - by rewrite lookup_insert_eq.
  - by rewrite lookup_insert_ne.
Qed.

Lemma rank_of_hint (hint : list string) (k : string) :
  rank_of (Some (index_orders 0 hint ∅)) k = Spec.hint_rank hint k.
Proof.
  unfold rank_of, index0, Spec.hint_rank. rewrite index_orders_lookup.
  by destruct (Spec.hint_index 0 hint k).
Qed.

Lemma hint_index_absent (i : Z) (hint : list string) (k : string) :
  k ∉ hint → Spec.hint_index i hint k = None.
Proof.
  revert i. induction hint as [|x rest IH]; intros i Hk; simpl; [done|].
  apply not_elem_of_cons in Hk as [Hne Hk]. rewrite IH by done.
  destruct (String.eqb_spec x k); congruence.
Qed.


Lemma hint_index_lower (i : Z) (hint : list string) (k : string) (j : Z) :
  Spec.hint_index i hint k = Some j → i ≤ j.
Proof.
  revert i. induction hint as [|x rest IH]; intros i; simpl; [done|].
  destruct (Spec.hint_index (i + 1) rest k) as [j'|] eqn:Hj.
  - intros [= <-]. apply IH in Hj. lia.
  - destruct (String.eqb x k); [|done]. intros [= <-]. lia.
Qed.

Lemma hint_rank_nonneg (hint : list string) (k : string) :
  0 ≤ Spec.hint_rank hint k.
Proof.
  unfold Spec.hint_rank.
  destruct (Spec.hint_index 0 hint k) eqn:Hk; simpl; [|done].
  by apply hint_index_lower in Hk.
Qed.


End Sorter.

(** ** The field list and the key column *)

Section Collect.
Context `{L : Libs}.

#[local] Arguments collect_step : simpl never.

Lemma longest_app (l : list string) (k : string) :
  Spec.longest (l ++ [k])%list = Z.max (Spec.longest l) (Bytes.len k).
Proof.
  induction l as [|x l IH]; simpl.
  - unfold Bytes.len. lia.
  - rewrite IH. lia.
Qed.

Lemma longest_perm (l l' : list string) :
  l ≡ₚ l' → Spec.longest l = Spec.longest l'.
Proof.
  induction 1 as [|x l l' _ IH|x y l|l l' l'' _ IH1 _ IH2]; simpl;
    [done|rewrite IH; done|lia|congruence].
Qed.

Lemma collect_step_spec (prefix : string) (c c' : collected)
    (key : string) (v : Value) :
  collect_step prefix c (key, v) = Ok c' →
  names c' =
    (names c ++ (if generic_key prefix key then [key] else []))%list ∧
  (keySize c = Z.max 5 (Spec.longest (names c)) →
   keySize c' = Z.max 5 (Spec.longest (names c'))) ∧
  orders c' =
    (if String.eqb key "_order"
     then match dyn v with DStrings l => l | _ => orders c end
     else orders c).
Proof.
  unfold collect_step, generic_key.
  destruct (String.eqb key "_order"); simpl.
  { destruct (dyn v); intros [= <-]; simpl. by rewrite app_nil_r. }
  destruct (is_context_key key && nonempty prefix); simpl.
  { intros [= <-]. by rewrite app_nil_r. }
  intros [= <-]; simpl. split_and!; [done| |done].
  intros ->. rewrite longest_app.
  destruct (Z.gtb_spec (Bytes.len key) (Z.max 5 (Spec.longest (names c))));
    lia.
Qed.

Lemma collect_from_spec (prefix : string) (kvs : list (string * Value))
    (c c' : collected) :
  collect_from prefix c kvs = Ok c' →
  names c' =
    (names c ++ filter (λ k, generic_key prefix k = true) (kvs.*1))%list ∧
  (keySize c = Z.max 5 (Spec.longest (names c)) →
   keySize c' = Z.max 5 (Spec.longest (names c'))).
Proof.
  revert c. induction kvs as [|[key v] rest IH]; intros c; simpl.
  - intros [= <-]. by rewrite app_nil_r.
  - destruct (collect_step prefix c (key, v)) as [c1|why] eqn:Hstep;
      simpl; [|done].
    intros Hrest. apply collect_step_spec in Hstep as (Hn & Hk & _).
    apply IH in Hrest as (Hn' & Hk'). split; [|by auto].
    rewrite Hn', Hn, <- app_assoc. f_equal.
    rewrite filter_cons. by destruct (generic_key prefix key).
Qed.

Lemma collect_from_orders (prefix : string) (kvs : list (string * Value))
    (c c' : collected) (hint : list string) :
  (∀ v, ("_order", v) ∈ kvs → dyn v = DStrings hint) →
  collect_from prefix c kvs = Ok c' →
  orders c' = hint ∨ (orders c' = orders c ∧ ∀ v, ("_order", v) ∉ kvs).
Proof.
  revert c. induction kvs as [|[key v] rest IH]; intros c Hhint; simpl.
  - intros [= <-]. right. split; [done|]. intros v. apply not_elem_of_nil.
  - destruct (collect_step prefix c (key, v)) as [c1|why] eqn:Hstep;
      simpl; [|done].
    intros Hrest. apply collect_step_spec in Hstep as (_ & _ & Ho).
    assert (∀ v', ("_order", v') ∈ rest → dyn v' = DStrings hint) as Hhint'.
    { intros v' Hv'. apply Hhint. by right. }
    destruct (IH c1 Hhint' Hrest) as [Hc'|[Hc' Hnone]]; [by left|].
    destruct (String.eqb_spec key "_order") as [->|Hne].
    + left. rewrite Hc', Ho, (Hhint v); [done|by left].
    + right. split; [congruence|].
      intros v' [[=]|Hv']%elem_of_cons; [done|]. by apply (Hnone v').
Qed.

Lemma collect_from_returns (prefix : string) (kvs : list (string * Value))
    (c : collected) :
  (∀ v, ("_order", v) ∈ kvs → ∃ l, dyn v = DStrings l) →
  is_ok (collect_from prefix c kvs) = true.
Proof.
  revert c. induction kvs as [|[key v] rest IH]; intros c Hv; [done|].
  simpl.
  assert (∃ c1, collect_step prefix c (key, v) = Ok c1) as [c1 ->].
  { unfold collect_step. destruct (String.eqb_spec key "_order") as [->|].
    - destruct (Hv v) as [l ->]; [by left|]. eauto.
    - destruct (_ && _); eauto. }
  simpl. apply IH. intros v' Hv'. apply Hv. by right.
Qed.

Lemma elem_of_map_keys (m : gmap string Value) (k : string) :
  k ∈ (map_to_list m).*1 ↔ is_Some (m !! k).
Proof.
  rewrite list_elem_of_fmap. split.
  - intros ([k' v] & -> & Hkv). apply elem_of_map_to_list in Hkv. eauto.
  - intros [v Hv]. exists (k, v). split; [done|].
    by apply elem_of_map_to_list.
Qed.

(** What [collect] gathers from a record whose ["_order"] field, if
    any, is a [[]string]. *)
Lemma collect_spec (f : Formatter) (entry : Entry) (c : collected) :
  collect f entry = Ok c →
  NoDup (names c) ∧
  (∀ k, k ∈ names c ↔
        is_Some (Data entry !! k) ∧
        generic_key (compose_prefix f entry) k = true) ∧
  keySize c = Z.max 5 (Spec.longest (names c)).
Proof.
  unfold collect. intros Hc.
  apply collect_from_spec in Hc as (Hn & Hk). simpl in Hn.
  split_and!.
  - rewrite Hn. apply NoDup_filter, NoDup_fst_map_to_list.
  - intros k. rewrite Hn, list_elem_of_filter, elem_of_map_keys. tauto.
  - by apply Hk.
Qed.


Lemma clamp_key_width (ks : list string) :
  clamp_keySize (Z.max 5 (Spec.longest ks)) = Spec.key_width ks.
Proof.
  unfold clamp_keySize, Spec.key_width.
  destruct (Z.gtb_spec (Z.max 5 (Spec.longest ks)) 20); lia.
Qed.



End Collect.

(** ** Interactive layout *)

Section Interactive.
Context `{L : Libs}.




End Interactive.

(** ** Calls that return outside interactive mode *)

Section Returns.
Context `{L : Libs}.

(** Outside interactive mode a record whose ["_order"] field, if any,
    is a [[]string] is always rendered. *)
Lemma Format_plain_returns (f : Formatter) (entry : Entry) :
  isTerminal (Format f entry).1 = false →
  (∀ v, Data entry !! "_order" = Some v → ∃ l, dyn v = DStrings l) →
  is_ok (Format f entry).2 = true.
Proof.
  intros Ht Hv. rewrite Format_result.
  apply Format_body_plain_returns; [done|].
  unfold collect. apply collect_from_returns.
  intros v Hin%elem_of_map_to_list. eauto.
Qed.

End Returns.

(** ** The order in which the map is ranged over *)

Section RangeOrder.
Context `{L : Libs}.

#[local] Arguments collect_step : simpl never.

Lemma sort_Sort_any_order (o p : option (gmap string Z))
    (ks ks' : list string) :
  ks ≡ₚ ks' →
  sort_Sort (mkSorter o p ks) = sort_Sort (mkSorter o p ks').
Proof.
  intros Hperm.
  apply (StronglySorted_unique_strong (Less_order (mkSorter o p ks))).
  - intros a b _ _. apply Less_order_antisym.
  - apply sort_Sort_sorted.
  - apply (sort_Sort_sorted (mkSorter o p ks')).
  - rewrite !sort_Sort_perm. exact Hperm.
Qed.

Lemma sort_Strings_any_order (ks ks' : list string) :
  ks ≡ₚ ks' → sort_Strings ks = sort_Strings ks'.
Proof.
  intros Hperm. apply (StronglySorted_unique String.le).
  - apply sort_Strings_sorted.
  - apply sort_Strings_sorted.
  - by rewrite !sort_Strings_perm.
Qed.

Lemma sort_keys_any_order (ordering : option (gmap string Z))
    (hint ks ks' : list string) :
  ks ≡ₚ ks' → sort_keys ordering hint ks = sort_keys ordering hint ks'.
Proof.
  intros Hperm. unfold sort_keys. destruct (_ && _).
  - by apply sort_Strings_any_order.
  - by apply sort_Sort_any_order.
Qed.

Lemma collect_from_panic (prefix : string) (kvs : list (string * Value))
    (c : collected) (why : string) :
  collect_from prefix c kvs = Panic why →
  why = "interface conversion: interface {} is not []string".
Proof.
  revert c. induction kvs as [|[key v] rest IH]; intros c; simpl; [done|].
  destruct (collect_step prefix c (key, v)) as [c1|why1] eqn:Hstep; simpl.
  - apply IH.
  - intros [= <-]. unfold collect_step in Hstep.
    destruct (String.eqb key "_order").
    + by destruct (dyn v); simplify_eq.
    + by destruct (_ && _).
Qed.

(** Go leaves the order of [range] over a map open; the field list and
    the key column do not depend on it. *)
Lemma field_plan_any_order (f : Formatter) (entry : Entry)
    (kvs : list (string * Value)) :
  kvs ≡ₚ map_to_list (Data entry) →
  field_plan_over f entry kvs =
  field_plan_over f entry (map_to_list (Data entry)).
Proof.
  intros Hperm. unfold field_plan_over.
  set (p := compose_prefix f entry).
  set (c0 := {| orders := []; names := []; keySize := 5 |}).
  assert (∀ v, ("_order", v) ∈ kvs ↔ Data entry !! "_order" = Some v) as Hin.
  { intros v. by rewrite Hperm, elem_of_map_to_list. }
  assert (∀ v, ("_order", v) ∈ map_to_list (Data entry) ↔
               Data entry !! "_order" = Some v) as Hin'.
  { intros v. apply elem_of_map_to_list. }
  set (hint := match Data entry !! "_order" with
               | Some {| dyn := DStrings l |} => l
               | _ => []
               end).
  destruct (collect_from p c0 kvs) as [c1|why1] eqn:H1;
    destruct (collect_from p c0 (map_to_list (Data entry))) as [c2|why2]
      eqn:H2; simpl.
  - assert (∀ l c, (∀ v, ("_order", v) ∈ l ↔
                         Data entry !! "_order" = Some v) →
                   collect_from p c0 l = Ok c → orders c = hint) as Horders.
    { intros l c Hl Hc.
      assert (is_ok (collect_from p c0 l) = true) as Hok by by rewrite Hc.
      assert (∀ v, ("_order", v) ∈ l → dyn v = DStrings hint) as Hall.
      { intros v Hv. pose proof Hv as Hm. apply Hl in Hm.
        unfold hint. rewrite Hm. destruct v as [[s|h|e t] js]; simpl; [|done|].
        - rewrite (collect_from_bad_order p l c0 _ Hv) in Hok; done.
        - rewrite (collect_from_bad_order p l c0 _ Hv) in Hok; done. }
      destruct (collect_from_orders _ _ _ _ hint Hall Hc) as [?|[Ho Hnone]];
        [done|].
      rewrite Ho. unfold hint.
      destruct (Data entry !! "_order") as [v|] eqn:Hv; [|done].
      destruct (Hnone v). by apply Hl. }
    apply collect_from_spec in H1 as Hs1. destruct Hs1 as (Hn1 & Hk1).
    apply collect_from_spec in H2 as Hs2. destruct Hs2 as (Hn2 & Hk2).
    simpl in Hn1, Hn2.
    assert (names c1 ≡ₚ names c2) as Hnames.
    { rewrite Hn1, Hn2. by rewrite Hperm. }
    rewrite (Horders _ _ Hin H1), (Horders _ _ Hin' H2).
    rewrite Hk1, Hk2 by done.
    by rewrite (sort_keys_any_order _ _ _ _ Hnames), (longest_perm _ _ Hnames).
  - exfalso.
    assert (is_ok (collect_from p c0 (map_to_list (Data entry))) = true)
      as Hok; [|by rewrite H2 in Hok].
    apply collect_from_returns. intros v Hv%Hin'%Hin.
    destruct (dyn v) as [s|l|e t] eqn:Hdyn; [|by eauto|].
    + pose proof (collect_from_bad_order p kvs c0 v Hv) as Hbad.
      rewrite H1 in Hbad. discriminate Hbad. congruence.
    + pose proof (collect_from_bad_order p kvs c0 v Hv) as Hbad.
      rewrite H1 in Hbad. discriminate Hbad. congruence.
  - exfalso.
    assert (is_ok (collect_from p c0 kvs) = true)
      as Hok; [|by rewrite H1 in Hok].
    apply collect_from_returns. intros v Hv. pose proof Hv as Hv'.
    apply Hin, Hin' in Hv'.
    destruct (dyn v) as [s|l|e t] eqn:Hdyn; [|by eauto|].
    + pose proof (collect_from_bad_order p _ c0 v Hv') as Hbad.
      rewrite H2 in Hbad. discriminate Hbad. congruence.
    + pose proof (collect_from_bad_order p _ c0 v Hv') as Hbad.
      rewrite H2 in Hbad. discriminate Hbad. congruence.
  - apply collect_from_panic in H1, H2. by subst.
Qed.

Lemma field_plan_collect (f : Formatter) (entry : Entry) :
  field_plan_over f entry (map_to_list (Data entry)) =
  (ks ← field_names f entry; w ← key_column f entry; mret (ks, w)).
Proof.
  unfold field_plan_over, field_names, key_column, collect.
  by destruct (collect_from _ _ _).
Qed.

End RangeOrder.

(** ** Calls that return *)

Section InteractiveReturns.
Context `{L : Libs}.

Lemma longest_ge (l : list string) (k : string) :
  k ∈ l → Bytes.len k ≤ Spec.longest l.
Proof.
  induction l as [|x l IH]; [by intros ?%elem_of_nil|].
  intros [->|Hk]%elem_of_cons; simpl; [lia|]. apply IH in Hk. lia.
Qed.

Lemma field_entry_returns (f : Formatter) (entry : Entry) (w : Z)
    (key : string) :
  (isTerminal f = true → jsonFmt f ≠ None ∧ Bytes.len key ≤ w) →
  is_ok (field_entry f entry w key) = true.
Proof.
  intros Hf. unfold field_entry, render_value, prettify.
  destruct (isTerminal f).
  - destruct Hf as [Hj Hlen]; [done|].
    destruct (jsonFmt f) as [j|]; [|done].
    unfold bytes_Repeat.
    destruct (Z.ltb_spec (w - Bytes.len key) 0); [lia|].
    by destruct (marshal_value _).
  - by destruct (marshal_value _).
Qed.

Lemma write_fields_returns (f : Formatter) (entry : Entry) (w : Z)
    (ks : list string) (b : string) :
  (∀ k, k ∈ ks → is_ok (field_entry f entry w k) = true) →
  is_ok (write_fields f entry w ks b) = true.
Proof.
  revert b. induction ks as [|key rest IH]; intros b Hks; [done|]. simpl.
  pose proof (Hks key) as Hkey.
  destruct (field_entry f entry w key) as [s|why]; simpl.
  - apply IH. intros k Hk. apply Hks. by right.
  - apply Hkey. by left.
Qed.

(** A record whose ["_order"] field, if any, is a [[]string] is always
    rendered, provided that in interactive mode the pretty-printer is
    there and no key is longer than 20 bytes. *)
Lemma Format_body_returns (f : Formatter) (entry : Entry) :
  (isTerminal f = true →
   jsonFmt f ≠ None ∧ ∀ k, is_Some (Data entry !! k) → Bytes.len k ≤ 20) →
  (∀ v, Data entry !! "_order" = Some v → ∃ l, dyn v = DStrings l) →
  is_ok (Format_body f entry) = true.
Proof.
  intros Hf Hv. unfold Format_body.
  destruct (collect f entry) as [c|why] eqn:Hc; simpl.
  2: { pose proof (collect_from_returns (compose_prefix f entry)
                     (map_to_list (Data entry))
                     {| orders := []; names := []; keySize := 5 |}) as Hok.
       unfold collect in Hc. rewrite Hc in Hok. apply Hok.
       intros v Hin%elem_of_map_to_list. eauto. }
  apply collect_spec in Hc as (_ & Hin & Hk).
  match goal with
  | |- context [write_fields f entry ?w ?ks ?b] =>
      pose proof (write_fields_returns f entry w ks b) as Hw;
      destruct (write_fields f entry w ks b); [done|]
  end.
  apply Hw. intros k Hks. apply field_entry_returns. intros Ht.
  destruct (Hf Ht) as [Hj Hlen]. split; [done|].
  rewrite sort_keys_perm in Hks. pose proof (longest_ge _ _ Hks) as Hlong.
  apply Hin in Hks as [Hsome _]. apply Hlen in Hsome.
  rewrite Hk, clamp_key_width. unfold Spec.key_width. lia.
Qed.

(** The same for a call, on a formatter that was never used or has
    its pretty-printer. *)
Lemma Format_returns (f : Formatter) (entry : Entry) :
  (once_done f = false ∨ jsonFmt f ≠ None) →
  (∀ k, is_Some (Data entry !! k) → Bytes.len k ≤ 20) →
  (∀ v, Data entry !! "_order" = Some v → ∃ l, dyn v = DStrings l) →
  is_ok (Format f entry).2 = true.
Proof.
  intros Honce Hlen Hv. rewrite Format_result.
  apply Format_body_returns; [|done].
  intros _. split; [|done].
  rewrite Format_state. unfold Do.
  destruct (once_done f); simpl; [|done].
  by destruct Honce.
Qed.

End InteractiveReturns.

(** ** Priorities: [Order] and the order of the fields *)

Section Priorities.
Context `{L : Libs}.

Lemma foldl_insert_lookup (p : Z) (ks : list string) (m : gmap string Z)
    (k : string) :
  foldl (λ m key, <[key := p]> m) m ks !! k =
  if decide (k ∈ ks) then Some p else m !! k.
Proof.
  revert m. induction ks as [|x ks IH]; intros m; simpl.
  - destruct (decide (k ∈ [])) as [Hin|_]; [by apply elem_of_nil in Hin|done].
  - rewrite IH.
    destruct (decide (k ∈ ks)) as [Hin|Hin];
      destruct (decide (k ∈ x :: ks)) as [Hin'|Hin']; try done.
    + destruct Hin'. by right.
    + apply elem_of_cons in Hin' as [->|?]; [|done].
      by rewrite lookup_insert_eq.
    + apply not_elem_of_cons in Hin' as [Hne _].
      by rewrite lookup_insert_ne.
Qed.

(** [Order] gives the listed keys the priority, keeps the priority of
    every other key and leaves a map that is not nil; a later [Order]
    wins over an earlier one on the keys both list. *)
Theorem Order_priorities (f : Formatter) (p q : Z) (ks ks' : list string)
    (k : string) :
  rank_of (Ordering (Order f p ks)) k =
    (if decide (k ∈ ks) then p else rank_of (Ordering f) k) ∧
  Ordering (Order f p ks) ≠ None ∧
  rank_of (Ordering (Order (Order f p ks) q ks')) k =
    (if decide (k ∈ ks') then q
     else if decide (k ∈ ks) then p
     else rank_of (Ordering f) k).
Proof.
  assert (∀ g r l, rank_of (Ordering (Order g r l)) k =
                   if decide (k ∈ l) then r else rank_of (Ordering g) k)
    as Hone.
  { intros g r l. unfold Order, rank_of, index0. simpl.
    rewrite foldl_insert_lookup. destruct (decide (k ∈ l)); [done|].
    destruct (Ordering g); simpl; [done|]. by rewrite lookup_empty. }
  split_and!; [apply Hone|done|]. by rewrite !Hone.
Qed.

(** [Order] touches no other field of the formatter. *)
Lemma Order_keeps_options (f : Formatter) (p : Z) (ks : list string) :
  with_LevelLetters 0 (Order f p ks) = Order (with_LevelLetters 0 f) p ks.
Proof. done. Qed.

Lemma StronglySorted_le_strict (l : list string) :
  StronglySorted String.le l → NoDup l →
  StronglySorted (λ a b, strings_Compare a b < 0) l.
Proof.
  intros Hs Hnd. apply StronglySorted_NoDup_strict in Hs; [|done].
  eapply StronglySorted_weaken; [|exact Hs].
  intros a b. by rewrite strings_Compare_lt.
Qed.

(** Whatever the priority map and the hint, [sort_keys] lists distinct
    keys by priority, then hint rank, then name. *)
Lemma sort_keys_listed (ordering : option (gmap string Z))
    (hint ks : list string) :
  NoDup ks →
  StronglySorted (Notions.listed_before (default ∅ ordering) hint)
    (sort_keys ordering hint ks).
Proof.
  intros Hnd. unfold sort_keys.
  destruct (bool_decide (ordering = None) && (Z.of_nat (length hint) =? 0))
    eqn:Hplain.
  - apply andb_true_iff in Hplain as [Ho Hh].
    apply bool_decide_eq_true in Ho as ->.
    assert (hint = []) as -> by (destruct hint; [done|by simpl in Hh]).
    eapply StronglySorted_weaken.
    2: { apply StronglySorted_le_strict; [apply sort_Strings_sorted|].
         by rewrite sort_Strings_perm. }
    intros a b Hab. right. split; [done|]. right. by split.
  - set (s := {| order := ordering; pri := _; keys := ks |}).
    pose proof (sort_Sort_sorted s) as Hs.
    apply StronglySorted_NoDup_strict in Hs.
    2: { by rewrite (sort_Sort_perm s). }
    eapply StronglySorted_weaken; [|exact Hs].
    intros a b [Hab Hne]. unfold Less_order, s in Hab. cbn [order pri] in Hab.
    assert (∀ k, rank_of ordering k = index0 (default ∅ ordering) k) as Ho.
    { intros k. destruct ordering; [done|].
      unfold rank_of, index0. simpl. by rewrite lookup_empty. }
    assert (∀ k, rank_of (if Z.of_nat (length hint) >? 0
                          then Some (index_orders 0 hint ∅) else None) k =
                 Spec.hint_rank hint k) as Hp.
    { intros k. destruct hint as [|x hint]; [done|].
      change (Z.of_nat (length (x :: hint)) >? 0) with true.
      apply rank_of_hint. }
    rewrite !Ho, !Hp in Hab. unfold Notions.listed_before.
    rewrite strings_Compare_lt. intuition lia.
Qed.

(** The hint a record carries: the [[]string] under ["_order"]. *)
Lemma collect_orders (f : Formatter) (entry : Entry) (c : collected) :
  collect f entry = Ok c →
  orders c =
    match Data entry !! "_order" with
    | Some {| dyn := DStrings l |} => l
    | _ => []
    end.
Proof.
  intros Hc. unfold collect in Hc.
  set (hint := match Data entry !! "_order" with
               | Some {| dyn := DStrings l |} => l
               | _ => []
               end).
  assert (∀ v, ("_order", v) ∈ map_to_list (Data entry) →
               dyn v = DStrings hint) as Hall.
  { intros v Hv. pose proof Hv as Hm. apply elem_of_map_to_list in Hm.
    unfold hint. rewrite Hm. destruct v as [[s|h|e t] js]; simpl; [|done|].
    - pose proof (collect_from_bad_order (compose_prefix f entry) _
        {| orders := []; names := []; keySize := 5 |} _ Hv) as Hbad.
      rewrite Hc in Hbad. by discriminate Hbad.
    - pose proof (collect_from_bad_order (compose_prefix f entry) _
        {| orders := []; names := []; keySize := 5 |} _ Hv) as Hbad.
      rewrite Hc in Hbad. by discriminate Hbad. }
  destruct (collect_from_orders _ _ _ _ hint Hall Hc) as [?|[Ho Hnone]];
    [done|].
  rewrite Ho. unfold hint.
  destruct (Data entry !! "_order") as [v|] eqn:Hv; [|done].
  destruct (Hnone v). by apply elem_of_map_to_list.
Qed.

(** The field list of a call that gets as far as sorting, in the
    order [sort_keys] gives the distinct names gathered. *)
Lemma field_names_sorted (f : Formatter) (entry : Entry) (ks : list string) :
  field_names f entry = Ok ks →
  StronglySorted
    (Notions.listed_before (default ∅ (Ordering f))
       match Data entry !! "_order" with
       | Some {| dyn := DStrings l |} => l
       | _ => []
       end) ks.
Proof.
  unfold field_names.
  destruct (collect f entry) as [c|why] eqn:Hc; simpl; [|done].
  intros [= <-]. rewrite <- (collect_orders _ _ _ Hc).
  apply sort_keys_listed. by apply collect_spec in Hc as (Hnd & _).
Qed.

(** The generic fields of every record that is rendered are listed by
    priority, the greater first and 0 for a key that has none, then by
    rank in the hint, then by name; no two of them are left in an
    undecided order. *)
Theorem field_order (f : Formatter) (entry : Entry) (ks : list string) :
  field_names f entry = Ok ks →
  StronglySorted
    (λ a b,
       let priority := index0 (default ∅ (Ordering f)) in
       let rank :=
         Spec.hint_rank
           match Data entry !! "_order" with
           | Some {| dyn := DStrings l |} => l
           | _ => []
           end in
       priority b < priority a ∨
       (priority a = priority b ∧
        (rank a < rank b ∨
         (rank a = rank b ∧ strings_Compare a b < 0)))) ks.
Proof.
  intros Hks. apply field_names_sorted in Hks.
  eapply StronglySorted_weaken; [|exact Hks].
  intros a b Hab. exact Hab.
Qed.

(** A key with a greater priority is printed before a key with a
    smaller one: positive priorities come before the keys without
    priority, negative ones after them. *)
Theorem priority_precedence (f : Formatter) (entry : Entry)
    (ks : list string) (o : gmap string Z) (i j : nat) (a b : string) :
  field_names f entry = Ok ks →
  Ordering f = Some o →
  ks !! i = Some a →
  ks !! j = Some b →
  index0 o b < index0 o a →
  (i < j)%nat.
Proof.
  intros Hks Ho Ha Hb Hlt.
  pose proof (field_names_sorted _ _ _ Hks) as Hs. rewrite Ho in Hs.
  simpl in Hs.
  destruct (lt_eq_lt_dec i j) as [[?|<-]|Hji]; [done| |].
  - rewrite Ha in Hb. injection Hb as <-. lia.
  - exfalso.
    assert (Notions.listed_before o
              match Data entry !! "_order" with
              | Some {| dyn := DStrings l |} => l
              | _ => []
              end b a) as Hba.
    { clear Hks Hlt. revert i j Ha Hb Hji.
      induction Hs as [|x l Hl IH Hx]; intros i j Ha Hb Hji; [done|].
      destruct j as [|j]; simpl in Hb.
      - injection Hb as ->. destruct i as [|i]; [lia|]. simpl in Ha.
        rewrite Forall_forall in Hx. apply Hx.
        by eapply list_elem_of_lookup_2.
      - destruct i as [|i]; [lia|]. simpl in Ha.
        apply (IH i j); [done..|lia]. }
    unfold Notions.listed_before in Hba. lia.
Qed.

(** With no priority map and no hint the fields are listed by name. *)
Theorem default_field_order (f : Formatter) (entry : Entry)
    (ks : list string) :
  field_names f entry = Ok ks →
  Ordering f = None →
  Data entry !! "_order" = None →
  StronglySorted (λ a b, strings_Compare a b < 0) ks.
Proof.
  intros Hks Ho Hnone.
  pose proof (field_names_sorted _ _ _ Hks) as Hs. rewrite Ho, Hnone in Hs.
  eapply StronglySorted_weaken; [|exact Hs].
  intros a b. unfold Notions.listed_before, index0, Spec.hint_rank. simpl.
  rewrite !lookup_empty. simpl. lia.
Qed.

End Priorities.

(** ** Which fields are listed *)

Section Listed.
Context `{L : Libs}.

Lemma nonempty_spec (s : string) : nonempty s = true ↔ s ≠ "".
Proof.
  unfold nonempty. destruct (String.eqb_spec s ""); simpl; naive_solver.
Qed.

Lemma generic_key_spec (p k : string) :
  generic_key p k = true ↔
  k ≠ "_order" ∧ ¬ (k ∈ ["prefix"; "rpc"; "user"] ∧ p ≠ "").
Proof.
  unfold generic_key, is_context_key, nonempty.
  rewrite !elem_of_cons, elem_of_nil.
  destruct (String.eqb_spec k "_order"), (String.eqb_spec k "prefix"),
    (String.eqb_spec k "rpc"), (String.eqb_spec k "user"),
    (String.eqb_spec p ""); simpl; intuition congruence.
Qed.

Lemma field_names_elem (f : Formatter) (entry : Entry) (ks : list string)
    (k : string) :
  field_names f entry = Ok ks →
  k ∈ ks ↔
  is_Some (Data entry !! k) ∧ generic_key (compose_prefix f entry) k = true.
Proof.
  unfold field_names.
  destruct (collect f entry) as [c|why] eqn:Hc; simpl; [|done].
  intros [= <-]. apply collect_spec in Hc as (_ & Hin & _).
  by rewrite sort_keys_perm, Hin.
Qed.

(** The generic field list holds every key of the record once, but for
    ["_order"] and, when the prefix is not empty, ["prefix"], ["rpc"]
    and ["user"], whatever is stored under them. *)
Theorem field_names_content (f : Formatter) (entry : Entry)
    (ks : list string) :
  field_names f entry = Ok ks →
  NoDup ks ∧
  ∀ k, k ∈ ks ↔
       is_Some (Data entry !! k) ∧ k ≠ "_order" ∧
       ¬ (k ∈ ["prefix"; "rpc"; "user"] ∧ compose_prefix f entry ≠ "").
Proof.
  intros Hks. split.
  - unfold field_names in Hks.
    destruct (collect f entry) as [c|why] eqn:Hc; simpl in Hks; [|done].
    injection Hks as <-. apply collect_spec in Hc as (Hnd & _).
    by rewrite sort_keys_perm.
  - intros k. by rewrite (field_names_elem _ _ _ _ Hks), generic_key_spec.
Qed.

(** Outside interactive mode the prefix is empty exactly when no string
    is stored under ["user"] and no non-empty string under ["rpc"] or
    ["prefix"]. *)
Lemma prefix_nonempty (f : Formatter) (entry : Entry) :
  isTerminal f = false →
  nonempty (compose_prefix f entry) = Notions.has_context entry.
Proof.
  intros Ht. unfold compose_prefix, Notions.has_context, userColour,
    prefixColour, noColour. rewrite Ht.
  destruct (string_field entry "user") as [u|];
    destruct (string_field entry "rpc") as [[|c r]|];
    destruct (string_field entry "prefix") as [[|d p]|];
    try reflexivity; destruct u; reflexivity.
Qed.

(** Outside interactive mode, a record with a string under ["user"] or
    a non-empty string under ["rpc"] or ["prefix"] has none of these
    three keys among its generic fields, even one whose value is not a
    string and so is not part of the prefix either; any other record
    lists them like every other key. *)
Theorem context_fields_listed (f : Formatter) (entry : Entry)
    (ks : list string) (k : string) :
  isTerminal f = false →
  field_names f entry = Ok ks →
  k ∈ ["prefix"; "rpc"; "user"] →
  (k ∈ ks ↔ is_Some (Data entry !! k) ∧ Notions.has_context entry = false).
Proof.
  intros Ht Hks Hk.
  rewrite (field_names_elem _ _ _ _ Hks), generic_key_spec.
  rewrite <- (prefix_nonempty f entry Ht).
  pose proof (nonempty_spec (compose_prefix f entry)) as Hp.
  destruct (nonempty (compose_prefix f entry)).
  2: { assert (compose_prefix f entry = "") as ->.
       { destruct (decide (compose_prefix f entry = "")); [done|].
         by apply Hp in n. }
       assert (k ≠ "_order"); [|intuition congruence].
       intros ->. repeat (apply elem_of_cons in Hk as [?|Hk]; [done|]).
       by apply elem_of_nil in Hk. }
  assert (compose_prefix f entry ≠ "") by by apply Hp.
  assert (k ≠ "_order").
  { intros ->. repeat (apply elem_of_cons in Hk as [?|Hk]; [done|]).
    by apply elem_of_nil in Hk. }
  intuition congruence.
Qed.

End Listed.

(** ** The bytes returned *)

Section Frame.
Context `{L : Libs}.

Lemma starts_with_app (p s : string) : Notions.starts_with p (p +:+ s) = true.
Proof.
  induction p as [|c p IH]; [done|]. rewrite append_cons. simpl.
  by rewrite Ascii.eqb_refl.
Qed.

Lemma ends_with_newline_app (s : string) :
  Notions.ends_with_newline (s +:+ Bytes.bNewline) = true.
Proof.
  induction s as [|c s IH]; [done|]. rewrite append_cons.
  destruct s as [|d s]; [done|]. by rewrite append_cons in *.
Qed.

Lemma trailer_ends (f : Formatter) (entry : Entry) (cuddle : bool) :
  ∃ t, trailer f entry cuddle = t +:+ Bytes.bNewline.
Proof.
  unfold trailer. destruct cuddle; simpl.
  - destruct (ParagraphAll f).
    + by exists Bytes.bNewline.
    + by exists "".
  - destruct (ParagraphAll f || ParagraphBlock f).
    + exists (Bytes.bNewline +:+ "  " +:+ Message entry +:+ Bytes.bNewline).
      by rewrite !append_assoc.
    + exists (Bytes.bNewline +:+ "  " +:+ Message entry).
      by rewrite !append_assoc, append_nil_r.
Qed.

(** What a call returns begins with what the entry's buffer held and
    ends with a newline. *)
Theorem Format_appends_lines (f : Formatter) (entry : Entry) (out : string) :
  (Format f entry).2 = Ok out →
  Notions.starts_with (default "" (Buffer entry)) out = true ∧
  Notions.ends_with_newline out = true.
Proof.
  rewrite Format_result. intros Hout.
  destruct (Format_body_shape _ _ _ Hout) as (ks & w & block & _ & _ & _ & ->).
  split; [apply starts_with_app|].
  destruct (trailer_ends (Format f entry).1 entry
              (cuddleMessage (Format f entry).1 entry ks)) as [t ->].
  rewrite <- !append_assoc. apply ends_with_newline_app.
Qed.

End Frame.

(** ** When a call returns *)

Section ReturnsIff.
Context `{L : Libs}.

Lemma write_fields_ok_inv (f : Formatter) (entry : Entry) (w : Z)
    (ks : list string) (b : string) (k : string) :
  is_ok (write_fields f entry w ks b) = true →
  k ∈ ks →
  is_ok (field_entry f entry w k) = true.
Proof.
  revert b. induction ks as [|key rest IH]; intros b Hok Hk;
    [by apply elem_of_nil in Hk|].
  simpl in Hok.
  destruct (field_entry f entry w key) as [s|why] eqn:Hkey; [|done].
  apply elem_of_cons in Hk as [->|Hk]; [by rewrite Hkey|].
  by apply (IH (b +:+ s)).
Qed.

Lemma key_width_le (ks : list string) : Spec.key_width ks ≤ 20.
Proof. unfold Spec.key_width. lia. Qed.

Lemma Format_body_returns_iff (f : Formatter) (entry : Entry) :
  (isTerminal f = true → jsonFmt f ≠ None) →
  is_ok (Format_body f entry) = true ↔
  (∀ v, Data entry !! "_order" = Some v → ∃ l, dyn v = DStrings l) ∧
  (isTerminal f = true →
   ∀ k, is_Some (Data entry !! k) →
        generic_key (compose_prefix f entry) k = true →
        Bytes.len k ≤ 20).
Proof.
  intros Hj. unfold Format_body. split.
  - intros Hok.
    destruct (collect f entry) as [c|why] eqn:Hc; simpl in Hok; [|done].
    split.
    + intros v Hv. destruct (dyn v) as [s|l|e t] eqn:Hdyn; [|by eauto|].
      * assert (is_ok (collect f entry) = false) as Hbad; [|by rewrite Hc in Hbad].
        unfold collect. eapply collect_from_bad_order;
          [by apply elem_of_map_to_list|congruence].
      * assert (is_ok (collect f entry) = false) as Hbad; [|by rewrite Hc in Hbad].
        unfold collect. eapply collect_from_bad_order;
          [by apply elem_of_map_to_list|congruence].
    + intros Ht k Hsome Hgen.
      apply collect_spec in Hc as (_ & Hin & Hk).
      match type of Hok with
      | context [write_fields f entry ?w ?ks ?b] =>
          assert (is_ok (write_fields f entry w ks b) = true) as Hw
            by (by destruct (write_fields f entry w ks b));
          pose proof (write_fields_ok_inv f entry w ks b k Hw) as Hentry
      end.
      rewrite sort_keys_perm, Hin in Hentry. specialize (Hentry (conj Hsome Hgen)).
      rewrite Hk, clamp_key_width in Hentry.
      pose proof (key_width_le (names c)).
      destruct (Z_le_gt_dec (Bytes.len k) (Spec.key_width (names c)));
        [lia|].
      rewrite (field_entry_long_key f entry _ k Ht) in Hentry; [done|lia].
  - intros [Hv Hlen].
    destruct (collect f entry) as [c|why] eqn:Hc; simpl.
    2: { pose proof (collect_from_returns (compose_prefix f entry)
                       (map_to_list (Data entry))
                       {| orders := []; names := []; keySize := 5 |}) as Hok.
         unfold collect in Hc. rewrite Hc in Hok. apply Hok.
         intros v Hin%elem_of_map_to_list. eauto. }
    apply collect_spec in Hc as (_ & Hin & Hk).
    match goal with
    | |- context [write_fields f entry ?w ?ks ?b] =>
        pose proof (write_fields_returns f entry w ks b) as Hw;
        destruct (write_fields f entry w ks b); [done|]
    end.
    apply Hw. intros k Hks. apply field_entry_returns. intros Ht.
    split; [by apply Hj|].
    rewrite sort_keys_perm in Hks. pose proof (longest_ge _ _ Hks) as Hlong.
    apply Hin in Hks as [Hsome Hgen].
    pose proof (Hlen Ht k Hsome Hgen).
    rewrite Hk, clamp_key_width. unfold Spec.key_width. lia.
Qed.

(** A call on a formatter that was never used, or that has its
    pretty-printer, returns exactly when the value under ["_order"], if
    there is one, is a [[]string] and, in interactive mode, no generic
    field has a key longer than 20 bytes; otherwise it panics. *)
Theorem Format_returns_iff (f : Formatter) (entry : Entry) :
  (once_done f = false ∨ jsonFmt f ≠ None) →
  is_ok (Format f entry).2 = true ↔
  (∀ v, Data entry !! "_order" = Some v → ∃ l, dyn v = DStrings l) ∧
  (isTerminal (Format f entry).1 = true →
   ∀ k, is_Some (Data entry !! k) →
        generic_key (compose_prefix (Format f entry).1 entry) k = true →
        Bytes.len k ≤ 20).
Proof.
  intros Honce. rewrite Format_result.
  apply Format_body_returns_iff. intros _.
  rewrite Format_state. unfold Do.
  destruct (once_done f); simpl; [|done].
  by destruct Honce.
Qed.

End ReturnsIff.

(** ** Values on one line *)

Section OneLine.
Context `{L : Libs}.

Lemma contains_newline_app (a b : string) :
  Bytes.contains_newline (a +:+ b) =
  Bytes.contains_newline a || Bytes.contains_newline b.
Proof.
  induction a as [|c a IH]; [done|]. rewrite append_cons. simpl.
  by rewrite IH, orb_assoc.
Qed.

Lemma uniform_other_no_newline (r : string) :
  Spec.uniform false r = true → Bytes.contains_newline r = false.
Proof.
  induction r as [|c r IH]; [done|].
  intros [Hc Hr]%uniform_cons. simpl.
  by rewrite (not_space_not_newline _ Hc), (IH Hr).
Qed.

Lemma collapsed_runs_no_newline (rs : list (bool * string)) :
  Spec.well_formed rs →
  Bytes.contains_newline (Spec.join (Spec.collapse_run <$> rs)) = false.
Proof.
  induction rs as [|[w r] rest IH]; [done|].
  intros (_ & Hu & _ & Hrest). cbn [fmap list_fmap Spec.join].
  rewrite contains_newline_app, (IH Hrest), orb_false_r.
  unfold Spec.collapse_run. cbn [fst snd].
  destruct w; cbn [andb].
  - by destruct (Bytes.contains_newline r) eqn:Hn.
  - by apply uniform_other_no_newline.
Qed.

Lemma no_match_without_newline (s : string) :
  Bytes.contains_newline s = false → Regexp.reCompact_match s = None.
Proof.
  unfold Regexp.reCompact_match.
  induction s as [|c s IH]; [done|]. simpl.
  intros [Hc Hs]%orb_false_iff. rewrite (IH Hs), Hc.
  by destruct (Regexp.is_space c).
Qed.

Lemma replace_without_newline (repl s : string) :
  Bytes.contains_newline s = false → Regexp.replace_from repl O s = s.
Proof.
  induction s as [|c s IH]; [done|]. intros Hn.
  cbn [Regexp.replace_from]. rewrite (no_match_without_newline _ Hn).
  simpl in Hn. apply orb_false_iff in Hn as [_ Hs]. by rewrite (IH Hs).
Qed.

(** The compact form of a value holds no newline, whatever the value,
    and compacting it again changes nothing. *)
Theorem compact_form_one_line (data : string) :
  Bytes.contains_newline
    (Regexp.reCompact_ReplaceAll data Bytes.bSpace) = false ∧
  Regexp.reCompact_ReplaceAll
    (Regexp.reCompact_ReplaceAll data Bytes.bSpace) Bytes.bSpace =
  Regexp.reCompact_ReplaceAll data Bytes.bSpace.
Proof.
  assert (Bytes.contains_newline
            (Regexp.reCompact_ReplaceAll data Bytes.bSpace) = false) as Hn.
  { rewrite reCompact_single_line_form.
    apply collapsed_runs_no_newline, runs_well_formed. }
  split; [done|].
  by apply replace_without_newline.
Qed.

Lemma replace_newlines_without (pad s : string) :
  Bytes.contains_newline s = false → Bytes.replace_newlines pad s = s.
Proof.
  induction s as [|c s IH]; [done|]. simpl.
  intros [-> Hs]%orb_false_iff. by rewrite (IH Hs).
Qed.

(** A value whose text holds no newline is written as it is, in
    compact and in block form alike. *)
Theorem layout_of_one_line (f : Formatter) (keySize : Z) (data : string) :
  Bytes.contains_newline data = false →
  layout f keySize data = data.
Proof.
  intros Hn. unfold layout. destruct (_ || _).
  - by apply replace_without_newline.
  - by apply replace_newlines_without.
Qed.




(** A value that cannot be marshalled is shown as the text
    [[]byte(nil)]: the pretty-printer is not called and the call does
    not fail. *)
Theorem marshal_failure_shown (f : Formatter) (entry : Entry)
    (keySize : Z) (key : string) (value : Value) :
  marshal value = None →
  Data entry !! key = Some value →
  render_value f value = Ok "[]byte(nil)" ∧
  (isTerminal f = false →
   field_entry f entry keySize key = Ok ("  " +:+ key +:+ "=[]byte(nil)")) ∧
  (isTerminal f = true → Bytes.len key ≤ keySize →
   field_entry f entry keySize key =
     Ok (Bytes.bNewline +:+ "  " +:+ cyan key +:+ ": " +:+
         Bytes.repeat_nat " " (Z.to_nat (keySize - Bytes.len key)) +:+
         "[]byte(nil)")).
Proof.
  intros Hm Hkey.
  assert (render_value f value = Ok "[]byte(nil)") as Hr.
  { unfold render_value, marshal_value. by rewrite Hm. }
  split_and!; [done| |].
  - intros Ht. unfold field_entry. rewrite Hkey. simpl. by rewrite Hr, Ht.
  - intros Ht Hlen. unfold field_entry. rewrite Hkey. simpl.
    rewrite Hr, Ht. simpl. unfold bytes_Repeat.
    destruct (Z.ltb_spec (keySize - Bytes.len key) 0); [lia|]. simpl.
    unfold dataColour, layout, Regexp.reCompact_ReplaceAll. rewrite Ht.
    destruct (_ || _);
      [by rewrite replace_without_newline
      |by rewrite replace_newlines_without].
Qed.

End OneLine.

(** ** The sorter as an order *)

Section Interface.

(** [Less] compares any two keys, is transitive, and never puts two
    different keys before each other; a key is [Less] than itself. *)
Theorem Less_total_order (s : sorter) (a b c : string) :
  Less s a a = true ∧
  (Less s a b = true ∨ Less s b a = true) ∧
  (Less s a b = true → Less s b c = true → Less s a c = true) ∧
  (Less s a b = true → Less s b a = true → a = b).
Proof.
  rewrite !Less_spec. split_and!.
  - unfold Less_order. right. split; [done|]. right. by split.
  - apply Less_order_total.
  - apply (Less_order_trans s).
  - apply Less_order_antisym.
Qed.

Lemma insert_head_perm (l : list string) (j : nat) (b x : string) :
  l !! j = Some b → b :: <[j := x]> l ≡ₚ x :: l.
Proof.
  revert j. induction l as [|y l IH]; intros j Hj; [done|].
  destruct j as [|j]; simpl in *.
  - injection Hj as ->. apply Permutation_swap.
  - rewrite (Permutation_swap y b), (IH _ Hj). apply Permutation_swap.
Qed.

Lemma swap_perm (l : list string) (i j : nat) (a b : string) :
  l !! i = Some a → l !! j = Some b →
  <[j := a]> (<[i := b]> l) ≡ₚ l.
Proof.
  revert i j. induction l as [|x l IH]; intros i j Hi Hj; [done|].
  destruct i as [|i], j as [|j]; simpl in *.
  - by injection Hi as ->.
  - injection Hi as ->. by apply insert_head_perm.
  - injection Hj as ->. by apply insert_head_perm.
  - by rewrite (IH _ _ Hi Hj).
Qed.

Lemma key_at_ok (s : sorter) (i : Z) (k : string) :
  key_at s i = Ok k ↔ 0 ≤ i < Len s ∧ keys s !! Z.to_nat i = Some k.
Proof.
  unfold key_at, Len.
  destruct (Z.ltb_spec i 0), (Z.leb_spec (Z.of_nat (length (keys s))) i);
    simpl; [split; [done|lia]..|].
  destruct (keys s !! Z.to_nat i) as [k'|] eqn:Hk.
  - split; [intros [= ->]; split; [lia|done]|by intros [_ [= ->]]].
  - split; [done|by intros [_ ?]].
Qed.

(** [Swap] needs both indices within the keys and otherwise panics; it
    exchanges the two keys and keeps all of them, their number and the
    two maps. *)
Theorem Swap_exchanges (s : sorter) (i j : Z) :
  (is_ok (Swap s i j) = true ↔ 0 ≤ i < Len s ∧ 0 ≤ j < Len s) ∧
  ∀ s', Swap s i j = Ok s' →
    keys s' ≡ₚ keys s ∧ Len s' = Len s ∧
    order s' = order s ∧ pri s' = pri s ∧
    key_at s' i = key_at s j ∧ key_at s' j = key_at s i.
Proof.
  split.
  - unfold Swap.
    destruct (key_at s j) as [b|why] eqn:Hj; simpl.
    + destruct (key_at s i) as [a|why] eqn:Hi; simpl.
      * apply key_at_ok in Hi as [? _], Hj as [? _]. by split.
      * split; [done|]. intros [Hi' _]. unfold key_at in Hi.
        destruct (Z.ltb_spec i 0), (Z.leb_spec (Len s) i); simpl in Hi;
          try lia.
        destruct (keys s !! Z.to_nat i) eqn:Hk; [done|].
        apply lookup_ge_None in Hk. unfold Len in *. lia.
    + split; [done|]. intros [_ Hj']. unfold key_at in Hj.
      destruct (Z.ltb_spec j 0), (Z.leb_spec (Len s) j); simpl in Hj;
        try lia.
      destruct (keys s !! Z.to_nat j) eqn:Hk; [done|].
      apply lookup_ge_None in Hk. unfold Len in *. lia.
  - intros s'. unfold Swap.
    destruct (key_at s j) as [b|why] eqn:Hj; simpl; [|done].
    destruct (key_at s i) as [a|why] eqn:Hi; simpl; [|done].
    intros [= <-]. pose proof Hi as Hi'. pose proof Hj as Hj'.
    apply key_at_ok in Hi' as [Hir Hik], Hj' as [Hjr Hjk].
    assert (Len {| order := order s; pri := pri s;
                   keys := <[Z.to_nat j := a]> (<[Z.to_nat i := b]> (keys s)) |}
            = Len s) as Hlen.
    { unfold Len. simpl. by rewrite !length_insert. }
    split_and!; try done.
    + simpl. by apply swap_perm.
    + apply key_at_ok. rewrite Hlen. split; [done|]. simpl.
      destruct (decide (Z.to_nat i = Z.to_nat j)) as [Heq|Hne].
      * rewrite Heq in *. rewrite list_lookup_insert_eq.
        -- congruence.
        -- rewrite length_insert. unfold Len in *. lia.
      * rewrite list_lookup_insert_ne by done.
        apply list_lookup_insert_eq. unfold Len in *. lia.
    + apply key_at_ok. rewrite Hlen. split; [done|]. simpl.
      apply list_lookup_insert_eq. rewrite length_insert. unfold Len in *. lia.
Qed.

Lemma key_at_in_range (s : sorter) (i : Z) :
  is_ok (key_at s i) = true ↔ 0 ≤ i < Len s.
Proof.
  unfold key_at.
  destruct (Z.ltb_spec i 0), (Z.leb_spec (Len s) i); simpl;
    [split; [done|lia]..|].
  destruct (keys s !! Z.to_nat i) eqn:Hk; [done|].
  apply lookup_ge_None in Hk. unfold Len in *. lia.
Qed.

(** [Less] on indices panics outside the keys and is [Less] on the two
    keys otherwise. *)
Lemma Less_at_spec (s : sorter) (i j : Z) :
  (is_ok (Less_at s i j) = true ↔ 0 ≤ i < Len s ∧ 0 ≤ j < Len s) ∧
  ∀ a b, key_at s i = Ok a → key_at s j = Ok b →
         Less_at s i j = Ok (Less s a b).
Proof.
  rewrite <- !key_at_in_range. unfold Less_at. split.
  - destruct (key_at s i), (key_at s j); simpl; intuition congruence.
  - by intros a b -> ->.
Qed.

End Interface.

(** ** The older variant *)

Section Older.
Context `{L : Libs} `{J : RawMarshal}.

Lemma gather_from_spec (ks : list string) (w : Z)
    (kvs : list (string * Value)) :
  0 ≤ w →
  Legacy.gather_from ks w kvs =
  ((ks ++ kvs.*1)%list, Z.max w (Spec.longest (kvs.*1))).
Proof.
  revert ks w. induction kvs as [|[k v] rest IH]; intros ks w Hw.
  - simpl. rewrite app_nil_r. f_equal. lia.
  - cbn [Legacy.gather_from]. rewrite fmap_cons. cbn [fst].
    change (Spec.longest (k :: rest.*1))
      with (Z.max (Bytes.len k) (Spec.longest (rest.*1))).
    assert (0 ≤ Bytes.len k) by (unfold Bytes.len; lia).
    rewrite IH, <- app_assoc.
    + f_equal. destruct (Z.gtb_spec (Bytes.len k) w); lia.
    + destruct (Z.gtb_spec (Bytes.len k) w); lia.
Qed.

Lemma gather_spec (entry : Entry) :
  Legacy.gather entry =
  ((map_to_list (Data entry)).*1,
   Z.max 5 (Spec.longest ((map_to_list (Data entry)).*1))).
Proof. unfold Legacy.gather. by rewrite gather_from_spec. Qed.

Lemma longest_filter (P : string → Prop) `{∀ k, Decision (P k)}
    (l : list string) :
  Spec.longest (filter P l) ≤ Spec.longest l.
Proof.
  induction l as [|x l IH]; [done|]. rewrite filter_cons.
  destruct (decide (P x)); simpl; lia.
Qed.

(** The older variant measures every key of the record for the key
    column, also the context keys it then skips, so that its column is
    never narrower than the one the richer variant uses for the same
    record. *)
Theorem older_key_column (f : Formatter) (entry : Entry) (w : Z) :
  key_column f entry = Ok w →
  clamp_keySize (Legacy.gather entry).2 =
    Z.max 5 (Z.min 20 (Spec.longest ((map_to_list (Data entry)).*1))) ∧
  w ≤ clamp_keySize (Legacy.gather entry).2.
Proof.
  intros Hw. rewrite gather_spec. cbn [snd]. rewrite clamp_key_width.
  split; [done|].
  unfold key_column in Hw.
  destruct (collect f entry) as [c|why] eqn:Hc; simpl in Hw; [|done].
  injection Hw as <-. unfold collect in Hc.
  apply collect_from_spec in Hc as (Hn & Hk). simpl in Hn.
  rewrite Hk by done. rewrite clamp_key_width, Hn. unfold Spec.key_width.
  pose proof (longest_filter
    (λ k, generic_key (compose_prefix f entry) k = true)
    ((map_to_list (Data entry)).*1)). lia.
Qed.


Lemma older_field_entry_plain (f : Legacy.Formatter) (entry : Entry)
    (keySize : Z) (key : string) :
  Legacy.isTerminal f = false →
  Legacy.field_entry f entry keySize key =
  Ok (Legacy.key_value_pair entry key).
Proof.
  intros Ht. unfold Legacy.field_entry, Legacy.key_value_pair, prettify.
  change (isTerminal (Legacy.widen f)) with (Legacy.isTerminal f).
  rewrite Ht. by destruct (json_Marshal _).
Qed.

Lemma older_write_fields_plain (f : Legacy.Formatter) (entry : Entry)
    (keySize : Z) (p : string) (ks : list string) (b : string) :
  Legacy.isTerminal f = false →
  Legacy.write_fields f entry keySize p ks b =
  Ok (b +:+ Spec.join (Legacy.key_value_pair entry <$>
        filter (λ k, (is_context_key k && nonempty p) = false) ks)).
Proof.
  intros Ht. revert b. induction ks as [|key rest IH]; intros b; simpl.
  - by rewrite append_nil_r.
  - rewrite filter_cons.
    destruct (is_context_key key && nonempty p) eqn:Hskip.
    + rewrite decide_False by done. apply IH.
    + rewrite decide_True by done.
      rewrite older_field_entry_plain by done. simpl.
      rewrite IH. by rewrite append_assoc.
Qed.

Lemma older_body_plain (f : Legacy.Formatter) (entry : Entry) :
  Legacy.isTerminal f = false →
  Legacy.Format_body f entry =
    Ok (default "" (Buffer entry) +:+ Legacy.header f entry +:+
        Spec.join (Legacy.key_value_pair entry <$>
          Legacy.printed f entry
            (sort_Strings ((map_to_list (Data entry)).*1))) +:+
        Bytes.bNewline).
Proof.
  intros Ht. unfold Legacy.Format_body. rewrite gather_spec.
  rewrite older_write_fields_plain by done.
  cbn [mret mbind result_ret result_bind]. unfold Legacy.printed.
  by rewrite !append_assoc.
Qed.

Lemma older_header_plain (f : Legacy.Formatter) (entry : Entry) :
  Legacy.isTerminal f = false →
  Legacy.header f entry =
    "[" +:+ TimeFormat.stamp (Time entry) +:+ "]" +:+ " " +:+
    levelText (Legacy.widen f) entry +:+ " " +:+
    compose_prefix (Legacy.widen f) entry +:+ Message entry.
Proof.
  intros Ht.
  unfold Legacy.header, timeColour, levelColour, braketise, noColour.
  change (isTerminal (Legacy.widen f)) with (Legacy.isTerminal f).
  rewrite Ht. by rewrite !append_assoc.
Qed.

(** Outside interactive mode the older variant returns for every
    record, whatever is stored under any key: the bracketed time, the
    level, the prefix and the message, each after one space, then the
    entries of the keys in the order of their names and one newline. *)
Theorem older_plain_output (f : Legacy.Formatter) (entry : Entry) :
  Legacy.isTerminal (Legacy.Format f entry).1 = false →
  let f' := (Legacy.Format f entry).1 in
  (Legacy.Format f entry).2 =
    Ok (default "" (Buffer entry) +:+
        "[" +:+ TimeFormat.stamp (Time entry) +:+ "]" +:+ " " +:+
        levelText (Legacy.widen f') entry +:+ " " +:+
        compose_prefix (Legacy.widen f') entry +:+ Message entry +:+
        Spec.join (Legacy.key_value_pair entry <$>
          Legacy.printed f' entry
            (sort_Strings ((map_to_list (Data entry)).*1))) +:+
        Bytes.bNewline).
Proof.
  intros Ht f'. change ((Legacy.Format f entry).2)
    with (Legacy.Format_body f' entry).
  assert (Legacy.isTerminal f' = false) as Ht' by exact Ht.
  rewrite older_body_plain, older_header_plain by done.
  by rewrite !append_assoc.
Qed.




End Older.

(** ** Names repeated in the hint *)

Section HintRepeats.

Lemma index_orders_last (i : Z) (pre post : list string) (k : string)
    (p : gmap string Z) :
  k ∉ post →
  index_orders i (pre ++ k :: post) p !! k =
  Some (i + Z.of_nat (length pre)).
Proof.
  intros Hpost. revert i p.
  induction pre as [|x pre IH]; intros i p; simpl.
  - rewrite index_orders_lookup, hint_index_absent by done.
    rewrite lookup_insert_eq. f_equal. lia.
  - rewrite IH. f_equal. lia.
Qed.

(** A name the hint lists more than once is ranked by its last
    occurrence. *)
Theorem hint_last_occurrence (pre post : list string) (k : string) :
  k ∉ post →
  index0 (index_orders 0 (pre ++ k :: post) ∅) k = Z.of_nat (length pre).
Proof.
  intros Hpost. unfold index0. by rewrite index_orders_last.
Qed.

End HintRepeats.

(** ** Concrete records *)

#[local] Existing Instance Plain.libs.

(** A key of 21 bytes in interactive mode. *)
Lemma long_key_panics :
  (Format New
     (Plain.on_terminal
        (Plain.record InfoLevel "ready"
           [("aaaaaaaaaaaaaaaaaaaaa", Plain.VNumber "1")]))).2 =
  Panic "bytes: negative Repeat count".
Proof. vm_compute. reflexivity. Qed.



(** The default formatter on a record with one field. *)
Lemma message_placement_witness :
  (Format New Plain.one_field).2 =
    Ok ("[Jan 02 15:04:05.000] INF  k=1" +:+ Bytes.bNewline +:+
        "  ready" +:+ Bytes.bNewline) ∧
  ∃ ks w block,
    field_names (Format New Plain.one_field).1 Plain.one_field = Ok ks ∧
    key_column (Format New Plain.one_field).1 Plain.one_field = Ok w ∧
    field_block (Format New Plain.one_field).1 Plain.one_field w ks
      = Ok block ∧
    "[Jan 02 15:04:05.000] INF  k=1" +:+ Bytes.bNewline +:+
        "  ready" +:+ Bytes.bNewline =
    default "" (Buffer Plain.one_field) +:+
    header (Format New Plain.one_field).1 Plain.one_field +:+
      (if Spec.on_header_line (MessageAfter New) (CompactMessage New) ks
            (Message Plain.one_field)
       then Message Plain.one_field +:+ block +:+ Bytes.bNewline +:+
            (if ParagraphAll New then Bytes.bNewline else "")
       else block +:+ Bytes.bNewline +:+
            "  " +:+ Message Plain.one_field +:+ Bytes.bNewline +:+
            (if ParagraphAll New || ParagraphBlock New then Bytes.bNewline
             else "")).
Proof.
  assert ((Format New Plain.one_field).2 =
    Ok ("[Jan 02 15:04:05.000] INF  k=1" +:+ Bytes.bNewline +:+
        "  ready" +:+ Bytes.bNewline)) as Hout by (vm_compute; reflexivity).
  split; [exact Hout|].
  exact (message_placement New Plain.one_field _ Hout).
Defined.


(** An error with an empty text that is also a stringer saying
    ["boom"] stays the empty object. *)
Lemma empty_error_counterexample :
  marshal Plain.mute_error = Some "{}" ∧
  Spec.rescue_text Plain.mute_error = Some "boom" ∧
  marshal_value Plain.mute_error = Some "{}" ∧
  marshal_value Plain.mute_error ≠ Some (json_Marshal_string "boom").
Proof.
  split_and!; [reflexivity..|]. vm_compute. discriminate.
Qed.

Lemma empty_object_rescue_witness :
  marshal (Plain.VError "boom") = Some "{}" ∧
  marshal_value (Plain.VError "boom") = Some (Plain.quote "boom") ∧
  (∀ (f : Formatter) (entry : Entry) (keySize : Z) (key : string),
     isTerminal f = false →
     Data entry !! key = Some (Plain.VError "boom") →
     field_entry f entry keySize key =
       Ok ("  " +:+ key +:+ "=" +:+ Plain.quote "boom")).
Proof.
  split; [reflexivity|].
  exact (empty_object_rescue (Plain.VError "boom") eq_refl).
Defined.

(** A cuddled message, one field and [ParagraphAll]: the output ends
    in two newlines. *)
Lemma paragraph_counterexample :
  isTerminal (Format (Plain.message_first true) Plain.one_field).1 = false ∧
  field_names (Format (Plain.message_first true) Plain.one_field).1
    Plain.one_field = Ok ["k"] ∧
  cuddleMessage (Format (Plain.message_first true) Plain.one_field).1
    Plain.one_field ["k"] = true ∧
  (Format (Plain.message_first true) Plain.one_field).2 =
    Ok ("[Jan 02 15:04:05.000] INFready  k=1" +:+ Bytes.bNewline +:+
        Bytes.bNewline) ∧
  Spec.single_line
    ("[Jan 02 15:04:05.000] INFready  k=1" +:+ Bytes.bNewline +:+
     Bytes.bNewline) = false.
Proof. vm_compute. split_and!; reflexivity. Qed.

Lemma plain_fields_inline_witness :
  (isTerminal (Format (Plain.message_first false) Plain.one_field).1 = false ∧
   (Format (Plain.message_first false) Plain.one_field).2 =
     Ok ("[Jan 02 15:04:05.000] INFready  k=1" +:+ Bytes.bNewline)) ∧
  ∃ ks,
    field_names (Format (Plain.message_first false) Plain.one_field).1
      Plain.one_field = Ok ks ∧
    let cuddled :=
      cuddleMessage (Format (Plain.message_first false) Plain.one_field).1
        Plain.one_field ks in
    let line :=
      default "" (Buffer Plain.one_field) +:+
      header (Format (Plain.message_first false) Plain.one_field).1
        Plain.one_field +:+
      (if cuddled then Message Plain.one_field else "") +:+
      Spec.join (key_value_pair Plain.one_field <$> ks) in
    "[Jan 02 15:04:05.000] INFready  k=1" +:+ Bytes.bNewline =
      line +:+
      trailer (Format (Plain.message_first false) Plain.one_field).1
        Plain.one_field cuddled ∧
    (cuddled = true →
     "[Jan 02 15:04:05.000] INFready  k=1" +:+ Bytes.bNewline =
       line +:+ Bytes.bNewline +:+
       (if ParagraphAll (Plain.message_first false) then Bytes.bNewline
        else "")).
Proof.
  assert ((Format (Plain.message_first false) Plain.one_field).2 =
     Ok ("[Jan 02 15:04:05.000] INFready  k=1" +:+ Bytes.bNewline)) as Hout
    by (vm_compute; reflexivity).
  split; [by split|].
  exact (plain_fields_inline (Plain.message_first false) Plain.one_field _
           eq_refl Hout).
Defined.

(** ** Further concrete records *)

#[local] Existing Instance Examples.raw.

Lemma field_order_witness :
  field_names Examples.prioritised Examples.abc = Ok ["a"; "c"; "b"] ∧
  StronglySorted
    (Notions.listed_before (default ∅ (Ordering Examples.prioritised))
       match Data Examples.abc !! "_order" with
       | Some {| dyn := DStrings l |} => l
       | _ => []
       end) ["a"; "c"; "b"].
Proof.
  assert (field_names Examples.prioritised Examples.abc = Ok ["a"; "c"; "b"])
    as Hks by (vm_compute; reflexivity).
  split; [exact Hks|].
  exact (field_order Examples.prioritised Examples.abc _ Hks).
Defined.

Lemma priority_precedence_witness :
  (field_names Examples.prioritised Examples.abc = Ok ["a"; "c"; "b"] ∧
   ["a"; "c"; "b"] !! 1%nat = Some "c" ∧
   ["a"; "c"; "b"] !! 2%nat = Some "b" ∧
   index0 (<["b" := -1]> (<["a" := 5]> ∅)) "b" <
   index0 (<["b" := -1]> (<["a" := 5]> ∅)) "c") ∧
  (1 < 2)%nat.
Proof.
  assert (field_names Examples.prioritised Examples.abc = Ok ["a"; "c"; "b"])
    as Hks by (vm_compute; reflexivity).
  assert (index0 (<["b" := -1]> (<["a" := 5]> ∅)) "b" <
          index0 (<["b" := -1]> (<["a" := 5]> ∅)) "c") as Hlt
    by (vm_compute; reflexivity).
  split; [by split_and!|].
  exact (priority_precedence Examples.prioritised Examples.abc
           ["a"; "c"; "b"] (<["b" := -1]> (<["a" := 5]> ∅)) 1 2 "c" "b"
           Hks eq_refl eq_refl eq_refl Hlt).
Defined.

Lemma default_field_order_witness :
  (field_names New Examples.abc = Ok ["a"; "b"; "c"] ∧
   Ordering New = None ∧ Data Examples.abc !! "_order" = None) ∧
  StronglySorted (λ a b, strings_Compare a b < 0) ["a"; "b"; "c"].
Proof.
  assert (field_names New Examples.abc = Ok ["a"; "b"; "c"])
    as Hks by (vm_compute; reflexivity).
  assert (Data Examples.abc !! "_order" = None) as Hnone
    by (vm_compute; reflexivity).
  split; [by split_and!|].
  exact (default_field_order New Examples.abc _ Hks eq_refl Hnone).
Defined.

Lemma field_names_content_witness :
  field_names New Examples.with_user = Ok ["k"] ∧
  NoDup ["k"] ∧
  ∀ k, k ∈ ["k"] ↔
       is_Some (Data Examples.with_user !! k) ∧ k ≠ "_order" ∧
       ¬ (k ∈ ["prefix"; "rpc"; "user"] ∧
          compose_prefix New Examples.with_user ≠ "").
Proof.
  assert (field_names New Examples.with_user = Ok ["k"])
    as Hks by (vm_compute; reflexivity).
  split; [exact Hks|].
  exact (field_names_content New Examples.with_user _ Hks).
Defined.

(** The number under ["rpc"] is printed nowhere. *)
Lemma context_fields_listed_witness :
  (isTerminal New = false ∧
   field_names New Examples.with_user = Ok ["k"] ∧
   "rpc" ∈ ["prefix"; "rpc"; "user"]) ∧
  ("rpc" ∈ ["k"] ↔
   is_Some (Data Examples.with_user !! "rpc") ∧
   Notions.has_context Examples.with_user = false) ∧
  (Format New Examples.with_user).2 =
    Ok ("[Jan 02 15:04:05.000] INF bob@   k=1" +:+ Bytes.bNewline +:+
        "  ready" +:+ Bytes.bNewline).
Proof.
  assert (field_names New Examples.with_user = Ok ["k"])
    as Hks by (vm_compute; reflexivity).
  assert ("rpc" ∈ ["prefix"; "rpc"; "user"]) as Hin
    by (right; left).
  split; [by split_and!|]. split; [|vm_compute; reflexivity].
  exact (context_fields_listed New Examples.with_user _ "rpc" eq_refl Hks Hin).
Defined.

Lemma Format_appends_lines_witness :
  (Format New Plain.one_field).2 =
    Ok ("[Jan 02 15:04:05.000] INF  k=1" +:+ Bytes.bNewline +:+
        "  ready" +:+ Bytes.bNewline) ∧
  Notions.starts_with (default "" (Buffer Plain.one_field))
    ("[Jan 02 15:04:05.000] INF  k=1" +:+ Bytes.bNewline +:+
     "  ready" +:+ Bytes.bNewline) = true ∧
  Notions.ends_with_newline
    ("[Jan 02 15:04:05.000] INF  k=1" +:+ Bytes.bNewline +:+
     "  ready" +:+ Bytes.bNewline) = true.
Proof.
  assert ((Format New Plain.one_field).2 =
    Ok ("[Jan 02 15:04:05.000] INF  k=1" +:+ Bytes.bNewline +:+
        "  ready" +:+ Bytes.bNewline)) as Hout by (vm_compute; reflexivity).
  split; [exact Hout|].
  exact (Format_appends_lines New Plain.one_field _ Hout).
Defined.

Lemma Format_bad_order_witness :
  (Data (Plain.record InfoLevel "ready" [("_order", Plain.VNumber "7")])
     !! "_order" = Some (Plain.VNumber "7") ∧
   ∀ l, dyn (Plain.VNumber "7") ≠ DStrings l) ∧
  is_ok (Format New
           (Plain.record InfoLevel "ready"
              [("_order", Plain.VNumber "7")])).2 = false.
Proof.
  assert (Data (Plain.record InfoLevel "ready"
                  [("_order", Plain.VNumber "7")])
            !! "_order" = Some (Plain.VNumber "7")) as Hv
    by (vm_compute; reflexivity).
  assert (∀ l, dyn (Plain.VNumber "7") ≠ DStrings l) as Hdyn
    by (intros l; discriminate).
  split; [by split|].
  exact (Format_bad_order New _ _ Hv Hdyn).
Defined.

Lemma Format_returns_iff_witness :
  (once_done New = false ∨ jsonFmt New ≠ None) ∧
  (is_ok (Format New Plain.hinted).2 = true ↔
   (∀ v, Data Plain.hinted !! "_order" = Some v → ∃ l, dyn v = DStrings l) ∧
   (isTerminal (Format New Plain.hinted).1 = true →
    ∀ k, is_Some (Data Plain.hinted !! k) →
         generic_key (compose_prefix (Format New Plain.hinted).1
                        Plain.hinted) k = true →
         Bytes.len k ≤ 20)).
Proof.
  split; [by left|].
  exact (Format_returns_iff New Plain.hinted (or_introl eq_refl)).
Defined.

Lemma field_plan_any_order_witness :
  reverse (map_to_list (Data Plain.hinted)) ≡ₚ map_to_list (Data Plain.hinted) ∧
  field_plan_over New Plain.hinted (reverse (map_to_list (Data Plain.hinted))) =
  field_plan_over New Plain.hinted (map_to_list (Data Plain.hinted)).
Proof.
  split; [apply reverse_Permutation|].
  exact (field_plan_any_order New Plain.hinted _
           (reverse_Permutation (map_to_list (Data Plain.hinted)))).
Defined.

Lemma layout_of_one_line_witness :
  Bytes.contains_newline "{ a }" = false ∧
  layout Plain.interactive 5 "{ a }" = "{ a }".
Proof.
  split; [reflexivity|].
  exact (layout_of_one_line Plain.interactive 5 "{ a }" eq_refl).
Defined.


Lemma marshal_failure_shown_witness :
  (marshal Examples.unmarshalable = None ∧
   Data Examples.with_channel !! "ch" = Some Examples.unmarshalable) ∧
  (render_value New Examples.unmarshalable = Ok "[]byte(nil)" ∧
   (isTerminal New = false →
    field_entry New Examples.with_channel 5 "ch" =
      Ok ("  " +:+ "ch" +:+ "=[]byte(nil)")) ∧
   (isTerminal New = true → Bytes.len "ch" ≤ 5 →
    field_entry New Examples.with_channel 5 "ch" =
      Ok (Bytes.bNewline +:+ "  " +:+ cyan "ch" +:+ ": " +:+
          Bytes.repeat_nat " " (Z.to_nat (5 - Bytes.len "ch")) +:+
          "[]byte(nil)"))) ∧
  (Format New Examples.with_channel).2 =
    Ok ("[Jan 02 15:04:05.000] INF  ch=[]byte(nil)" +:+ Bytes.bNewline +:+
        "  ready" +:+ Bytes.bNewline).
Proof.
  assert (Data Examples.with_channel !! "ch" = Some Examples.unmarshalable)
    as Hv by (vm_compute; reflexivity).
  split; [by split|]. split; [|vm_compute; reflexivity].
  exact (marshal_failure_shown New Examples.with_channel 5 "ch"
           Examples.unmarshalable eq_refl Hv).
Defined.

Lemma older_key_column_witness :
  key_column New Examples.with_user = Ok 5 ∧
  clamp_keySize (Legacy.gather Examples.with_user).2 =
    Z.max 5 (Z.min 20
      (Spec.longest ((map_to_list (Data Examples.with_user)).*1))) ∧
  5 ≤ clamp_keySize (Legacy.gather Examples.with_user).2.
Proof.
  assert (key_column New Examples.with_user = Ok 5) as Hw
    by (vm_compute; reflexivity).
  split; [exact Hw|].
  exact (older_key_column New Examples.with_user 5 Hw).
Defined.

Lemma older_plain_output_witness :
  Legacy.isTerminal (Legacy.Format Legacy.New Plain.one_field).1 = false ∧
  (Legacy.Format Legacy.New Plain.one_field).2 =
    Ok ("[Jan 02 15:04:05.000] INF ready  k=1" +:+ Bytes.bNewline) ∧
  (Legacy.Format Legacy.New Plain.one_field).2 =
    Ok (default "" (Buffer Plain.one_field) +:+
        "[" +:+ TimeFormat.stamp (Time Plain.one_field) +:+ "]" +:+ " " +:+
        levelText
          (Legacy.widen (Legacy.Format Legacy.New Plain.one_field).1)
          Plain.one_field +:+ " " +:+
        compose_prefix
          (Legacy.widen (Legacy.Format Legacy.New Plain.one_field).1)
          Plain.one_field +:+ Message Plain.one_field +:+
        Spec.join (Legacy.key_value_pair Plain.one_field <$>
          Legacy.printed (Legacy.Format Legacy.New Plain.one_field).1
            Plain.one_field
            (sort_Strings ((map_to_list (Data Plain.one_field)).*1))) +:+
        Bytes.bNewline).
Proof.
  split; [reflexivity|]. split; [vm_compute; reflexivity|].
  exact (older_plain_output Legacy.New Plain.one_field eq_refl).
Defined.


Lemma hint_last_occurrence_witness :
  ("a" ∉ ["b"]) ∧
  index0 (index_orders 0 (["a"; "c"] ++ "a" :: ["b"]) ∅) "a" =
    Z.of_nat (length ["a"; "c"]).
Proof.
  assert ("a" ∉ ["b"]) as Hnot.
  { intros [[=]|Hin]%elem_of_cons. by apply elem_of_nil in Hin. }
  split; [exact Hnot|].
  exact (hint_last_occurrence ["a"; "c"] ["b"] "a" Hnot).
Defined.
